(** * Informer: form values gathered into nested objects

    A shallow embedding of the Informer form library (src/informer.js and the
    later revision quoted in src/readme.md) and the properties its
    specification states about it.

    Modelling conventions.
    - A JavaScript object is the list of its own enumerable properties in
      enumeration order: array-index keys first, in ascending numeric order,
      then the other keys in insertion order.  A read [o[k]] also finds the
      members that every object inherits ([constructor], [toString], ...),
      and so do [k in o] and [s[k]] on a string; these are modelled where
      the program reads.  What the program writes onto such a member lands
      on a function shared by all objects: it is no part of the tree and is
      not recorded.  Two names stay outside the model as keys: [__proto__],
      which names the prototype itself, and, in the module revision, an own
      key [hasOwnProperty], which makes [mergeObjects] throw.
    - A value stored in a form-value tree is a string (a leaf, always an
      element's [value]), an object, or a member that objects inherit,
      stored as an own property.
    - A string is the sequence of the bytes of its UTF-8 form.
    - An attribute read with [getAttribute] is [Some s] or [None] (JavaScript
      [null]); the sentinels [null] and [false] stored in element records are
      the constructors [ANull] and [AFalse] of [attr].
    - Code that mutates an object in place is modelled by state passing.  The
      objects handed to the mutating functions are fresh and never read again
      by their creator, so no aliasing is observable.
    - A JavaScript [TypeError] is an explicit outcome.
    - The [console] of a state holds the lines that the program writes with
      a call of [console.log] of its own, where it reports a condition to its
      user.  The lines of the tracing function [log], which the module
      revision writes for as long as [verbose] holds (and the later revision
      when [conf.log] is set), are a separate stream that is not recorded:
      in the module revision [console] speaks of the reports only. *)

From Stdlib Require Import List String Ascii Bool Arith NArith Lia DecimalString
  Permutation.
Import ListNotations.
Local Open Scope string_scope.
Local Open Scope list_scope.

(** * Property keys and own-property lists *)

Module Obj.

Definition digit_of (c : ascii) : option N :=
  let n := N_of_ascii c in
  if ((48 <=? n) && (n <=? 57))%N then Some (n - 48)%N else None.

Fixpoint digits_value (s : string) (acc : N) : option N :=
  match s with
  | EmptyString => Some acc
  | String c s' =>
      match digit_of c with
      | Some d => digits_value s' (acc * 10 + d)%N
      | None => None
      end
  end.

(** A key is an array index when it is the canonical decimal form of an
    integer below 2^32 - 1. *)
Definition array_index (k : string) : option N :=
  match k with
  | EmptyString => None
  | String c rest =>
      if (Ascii.eqb c "0"%char && negb (rest =? EmptyString))%bool then None
      else match digits_value k 0 with
           | Some n => if (n <? 4294967295)%N then Some n else None
           | None => None
           end
  end.

Section Props.
Variable A : Type.

Definition t := list (string * A).

(** [o[k]], [None] standing for [undefined] *)
Fixpoint get (k : string) (o : t) : option A :=
  match o with
  | [] => None
  | (k', v) :: o' => if k' =? k then Some v else get k o'
  end.

Fixpoint replace (k : string) (v : A) (o : t) : t :=
  match o with
  | [] => []
  | (k', v') :: o' =>
      if k' =? k then (k', v) :: o' else (k', v') :: replace k v o'
  end.

Fixpoint insert_index (i : N) (k : string) (v : A) (o : t) : t :=
  match o with
  | [] => [(k, v)]
  | (k', v') :: o' =>
      match array_index k' with
      | Some j => if (j <? i)%N then (k', v') :: insert_index i k v o'
                  else (k, v) :: o
      | None => (k, v) :: o
      end
  end.

(** [o[k] = v] *)
Definition set (k : string) (v : A) (o : t) : t :=
  match get k o with
  | Some _ => replace k v o
  | None =>
      match array_index k with
      | Some i => insert_index i k v o
      | None => o ++ [(k, v)]
      end
  end.

Definition keys (o : t) : list string := map fst o.

Definition has (k : string) (o : t) : bool :=
  match get k o with Some _ => true | None => false end.
End Props.

Arguments get {A} k o.
Arguments replace {A} k v o.
Arguments insert_index {A} i k v o.
Arguments set {A} k v o.
Arguments keys {A} o.
Arguments has {A} k o.

End Obj.

(** The members of [Object.prototype], which [k in o] and [o[k]] find in
    every object.  [__proto__] is listed because [in] finds it. *)
Definition object_members : list string :=
  ["constructor"; "hasOwnProperty"; "isPrototypeOf"; "propertyIsEnumerable";
   "toLocaleString"; "toString"; "valueOf"; "__defineGetter__";
   "__defineSetter__"; "__lookupGetter__"; "__lookupSetter__"; "__proto__"].

Definition inherited (k : string) : bool :=
  existsb (String.eqb k) object_members.

(** The members of [String.prototype], which [s[k]] finds for every string
    [s], besides those of [Object.prototype] *)
Definition string_members : list string :=
  ["anchor"; "at"; "big"; "blink"; "bold"; "charAt"; "charCodeAt";
   "codePointAt"; "concat"; "endsWith"; "fixed"; "fontcolor"; "fontsize";
   "includes"; "indexOf"; "isWellFormed"; "italics"; "lastIndexOf"; "link";
   "localeCompare"; "match"; "matchAll"; "normalize"; "padEnd"; "padStart";
   "repeat"; "replace"; "replaceAll"; "search"; "slice"; "small"; "split";
   "startsWith"; "strike"; "sub"; "substr"; "substring"; "sup";
   "toLocaleLowerCase"; "toLocaleUpperCase"; "toLowerCase"; "toUpperCase";
   "toWellFormed"; "trim"; "trimEnd"; "trimLeft"; "trimRight"; "trimStart"].

(** * Strings *)

(** ASCII lower-casing, which is what the DOM applies to the attribute name
    it is asked for; it stands for [s.toLowerCase()] on the letters A to Z. *)
Definition lower (c : ascii) : ascii :=
  let n := nat_of_ascii c in
  if (Nat.leb 65 n && Nat.leb n 90)%bool then ascii_of_nat (n + 32) else c.

Fixpoint toLowerCase (s : string) : string :=
  match s with
  | EmptyString => EmptyString
  | String c s' => String (lower c) (toLowerCase s')
  end.

(** [s.length]: the number of UTF-16 code units.  A byte that continues a
    character counts for nothing, a byte that opens a character of four
    bytes for two (a surrogate pair), every other byte for one. *)
Fixpoint utf16_length (s : string) : N :=
  match s with
  | EmptyString => 0%N
  | String c s' =>
      let b := N_of_ascii c in
      ((if (b <? 128) then 1
        else if (b <? 192) then 0
        else if (b <? 240) then 1
        else 2) + utf16_length s')%N
  end.

(** * Values *)

Inductive outcome (A : Type) : Type :=
| Ok (a : A)
| TypeError.
Arguments Ok {A} a.
Arguments TypeError {A}.

(** What an element record stores for an attribute: the string read, or one of
    the sentinels [null] and [false]. *)
Inductive attr : Type :=
| ANull
| AFalse
| AStr (s : string).

Definition truthy_attr (a : attr) : bool :=
  match a with
  | AStr s => negb (s =? EmptyString)
  | _ => false
  end.

(** The property key a value becomes when it is used inside [o[...]]. *)
Definition to_key (a : attr) : string :=
  match a with
  | ANull => "null"
  | AFalse => "false"
  | AStr s => s
  end.

(** [x || false] for the result [x] of [getAttribute] *)
Definition or_false (x : option string) : attr :=
  match x with
  | Some s => if s =? EmptyString then AFalse else AStr s
  | None => AFalse
  end.

(** [x] itself, [null] when the attribute is missing *)
Definition or_null (x : option string) : attr :=
  match x with
  | Some s => AStr s
  | None => ANull
  end.

(** [VFun m] is the member [m] of [Object.prototype], a function that all
    objects share; [VFun "constructor"] is [Object]. *)
Unset Elimination Schemes.
Inductive tree : Type :=
| VStr (s : string)
| VObj (o : list (string * tree))
| VFun (member : string).
Set Elimination Schemes.

Abbreviation obj := (list (string * tree)).

Section TreeInd.
Variable P : tree -> Prop.
Hypothesis HStr : forall s, P (VStr s).
Hypothesis HObj : forall o, Forall (fun kv => P (snd kv)) o -> P (VObj o).
Hypothesis HFun : forall m, P (VFun m).

Fixpoint tree_ind (v : tree) : P v :=
  match v with
  | VStr s => HStr s
  | VFun m => HFun m
  | VObj o =>
      HObj o ((fix props (l : obj) : Forall (fun kv => P (snd kv)) l :=
               match l with
               | [] => Forall_nil _
               | kv :: l' => Forall_cons kv (tree_ind (snd kv)) (props l')
               end) o)
  end.
End TreeInd.

(** [o[k]]: the own property, else the member that [o] inherits; [None] is
    [undefined]. *)
Definition read (k : string) (o : obj) : option tree :=
  match Obj.get k o with
  | Some v => Some v
  | None => if inherited k then Some (VFun k) else None
  end.

(** Truthiness of [o[k]]: [undefined] and the empty string are falsy, every
    object and every function is truthy. *)
Definition truthy (v : option tree) : bool :=
  match v with
  | Some (VStr s) => negb (s =? EmptyString)
  | Some (VObj _) => true
  | Some (VFun _) => true
  | None => false
  end.

(** [v.constructor == Object]: a string has [String] there and a function
    [Function]; an object has what it owns under [constructor], else
    [Object], which it inherits. *)
Definition constructor_is_Object (v : tree) : bool :=
  match v with
  | VObj o =>
      match read "constructor" o with
      | Some (VFun m) => m =? "constructor"
      | _ => false
      end
  | _ => false
  end.

(** Following a path of own keys down the objects of a value.  A function
    is no part of the tree: nothing is found below it. *)
Fixpoint lookup_path (path : list string) (v : tree) : option tree :=
  match path with
  | [] => Some v
  | key :: path' =>
      match v with
      | VObj o =>
          match Obj.get key o with
          | Some x => lookup_path path' x
          | None => None
          end
      | _ => None
      end
  end.

(** [{k1: {k2: ... {kn: v}}}]: [v] wrapped by the keys, the last one
    innermost *)
Definition nest (path : list string) (v : tree) : tree :=
  fold_right (fun key inner => VObj [(key, inner)]) v path.

(** Whether [k] is a key somewhere in a value, at any depth *)
Fixpoint has_key_deep (k : string) (v : tree) {struct v} : bool :=
  match v with
  | VStr _ | VFun _ => false
  | VObj o =>
      (fix any (props : obj) {struct props} : bool :=
         match props with
         | [] => false
         | (key, x) :: props' => (key =? k) || has_key_deep k x || any props'
         end) o
  end.

Fixpoint has_key_in (k : string) (props : obj) {struct props} : bool :=
  match props with
  | [] => false
  | (key, x) :: props' => (key =? k) || has_key_deep k x || has_key_in k props'
  end.

(** The number of leaves of a value that hold the string [s] *)
Fixpoint leaf_count (s : string) (v : tree) {struct v} : nat :=
  match v with
  | VStr s' => if s' =? s then 1 else 0
  | VFun _ => 0
  | VObj o =>
      (fix sum (props : obj) {struct props} : nat :=
         match props with
         | [] => 0
         | (_, x) :: props' => leaf_count s x + sum props'
         end) o
  end.

Fixpoint leaf_count_in (s : string) (props : obj) {struct props} : nat :=
  match props with
  | [] => 0
  | (_, x) :: props' => leaf_count s x + leaf_count_in s props'
  end.

(** An attribute that is there with a non-empty value, which is what the
    program's tests [if (x = e.getAttribute(...))] and [x || y] accept. *)
Definition present (x : option string) : option string :=
  match x with
  | Some s => if s =? EmptyString then None else Some s
  | None => None
  end.

(** * The document *)

Module Dom.

Record element : Type := mkElement {
  tagName : string;
  attributes : list (string * string);
  value : string
}.

Record form : Type := mkForm {
  form_attributes : list (string * string);
  descendants : list element   (* in document order *)
}.

(** On an element of an HTML document the name asked for is lower-cased
    before it is compared with the names of the attributes, which the parser
    stores in lower case. *)
Definition getAttribute (name : string) (e : element) : option string :=
  Obj.get (toLowerCase name) (attributes e).

Definition hasAttribute (name : string) (e : element) : bool :=
  Obj.has (toLowerCase name) (attributes e).

(** [form.getAttribute(name)] *)
Definition formAttribute (name : string) (f : form) : option string :=
  Obj.get (toLowerCase name) (form_attributes f).

Definition getElementsByTagName (tag : string) (f : form) : list element :=
  filter (fun e => tagName e =? tag) (descendants f).

Definition input_types : list string := ["input"; "select"; "textarea"].

End Dom.

(** * The module revision: colon-path grouping

    [var Informer = (function () { ... })()], second document of
    src/informer.js; src/readme.md quotes the next revision, which moves
    [buildNestedObject], [mergeObjects] and [stringToFunction] to [Utils] and
    adds the configuration store and [clearFormValues]. *)

Module Informer.
Import Dom.

Record conf : Type := mkConf {
  elem_attr_trigger : string;
  elem_attr_callback : string;
  elem_attr_fixed : string;
  data_transform_func : option (obj -> tree);  (* [None]: not a function *)
  unnamed_form_key : attr;
  log : bool
}.

(** [JSON.stringify] is kept abstract: any function from objects to values. *)
Definition default_conf (stringify : obj -> tree) : conf :=
  {| elem_attr_trigger := "action";
     elem_attr_callback := "onreturn";
     elem_attr_fixed := "disabled";
     data_transform_func := Some stringify;
     unnamed_form_key := ANull;
     log := false |}.

(** The value object of one element: keys [value], [name] and [group]. *)
Record value_object : Type := mkValueObject {
  value : string;
  name : attr;
  group : attr
}.

(** [elemToObject(elem)] with [attrs] defaulting to [value_attributes] *)
Definition elemToObject (elem : element) : value_object :=
  {| value := Dom.value elem;
     name := or_false (getAttribute "name" elem);
     group := or_false (getAttribute "group" elem) |}.

Definition elemsToObjs (form : form) : list value_object :=
  flat_map (fun tag => map elemToObject (getElementsByTagName tag form))
           input_types.

(** [s.split(sep)] as the first piece and the remaining ones: the array that
    [split] returns is never empty. *)
Fixpoint split (sep : ascii) (s : string) : string * list string :=
  match s with
  | EmptyString => (EmptyString, [])
  | String c s' =>
      let (piece, pieces) := split sep s' in
      if Ascii.eqb c sep then (EmptyString, piece :: pieces)
      else (String c piece, pieces)
  end.

(** [buildNestedObject(keys, end_val)] for [keys = [key0] ++ keys'], with an
    [end_val] that is defined.  [ret] is fresh, so [keys[0] in ret] holds
    exactly for the members that [ret] inherits.  For such a key and an
    [end_val] whose constructor is [Object], [ret[keys[0]]] becomes what
    [mergeObjects(ret[keys[0]], end_val)] returns: the inherited member
    itself, onto which the properties of [end_val] were written. *)
Fixpoint buildNestedObject (key0 : string) (keys' : list string)
    (end_val : tree) : obj :=
  match keys' with
  | [] =>
      if inherited key0 then
        if constructor_is_Object end_val then Obj.set key0 (VFun key0) []
        else Obj.set key0 end_val []
      else Obj.set key0 end_val []
  | key1 :: keys'' =>
      Obj.set key0 (VObj (buildNestedObject key1 keys'' end_val)) []
  end.

(** [mergeObjects(obj1, obj2)], by recursion on the second object, which is
    always an object: the function calls itself only on values whose
    constructor is [Object].  The test [obj1[key]] holds of every value
    whose constructor is [Object], and an inherited member read by
    [obj1[key]] is a function, whose constructor is not. *)
Fixpoint mergeInto (obj1 : obj) (v2 : tree) {struct v2} : obj :=
  match v2 with
  | VObj obj2 =>
      (fix each (props : obj) (obj1 : obj) {struct props} : obj :=
         match props with
         | [] => obj1
         | (key, x2) :: props' =>
             each props'
               (Obj.set key
                  match read key obj1 with
                  | Some (VObj x1) =>
                      if (constructor_is_Object (VObj x1) &&
                          constructor_is_Object x2)%bool
                      then VObj (mergeInto x1 x2)
                      else x2
                  | _ => x2
                  end
                  obj1)
         end) obj2 obj1
  | _ => obj1
  end.

Definition mergeObjects (obj1 obj2 : obj) : obj := mergeInto obj1 (VObj obj2).

(** The value that [mergeObjects] leaves under a key of the second object,
    given what [obj1[key]] was: the right-hand sides of the two assignments
    to [obj1[key]]. *)
Definition merged (old : option tree) (x2 : tree) : tree :=
  match old, x2 with
  | Some (VObj x1), VObj y2 =>
      if (constructor_is_Object (VObj x1) && constructor_is_Object (VObj y2))%bool
      then VObj (mergeObjects x1 y2)
      else x2
  | _, _ => x2
  end.

(** One turn of the loop of [groupValues] *)
Definition groupValues_step (vals_struct : obj) (val_obj : value_object) : obj :=
  if truthy_attr (group val_obj) then
    let group_str := to_key (group val_obj) in
    let form_val := Obj.set (to_key (name val_obj)) (VStr (value val_obj)) [] in
    let (key0, keys') := split ":"%char group_str in
    let val_struct := buildNestedObject key0 keys' (VObj form_val) in
    mergeObjects vals_struct val_struct
  else
    Obj.set (to_key (name val_obj)) (VStr (value val_obj)) vals_struct.

Definition groupValues (val_objs : list value_object) : obj :=
  fold_left groupValues_step val_objs [].

Definition gatherTheValues (form : form) : obj :=
  groupValues (elemsToObjs form).

(** [a || b] *)
Definition js_or (a b : attr) : attr := if truthy_attr a then a else b.

Definition toObject (c : conf) (form : form) (transform : option (obj -> tree))
  : tree :=
  let key := js_or (js_or (or_null (formAttribute "name" form))
                          (or_null (formAttribute "id" form)))
                   (unnamed_form_key c) in
  let valobj := match transform with
                | Some f => f (gatherTheValues form)
                | None => VObj (gatherTheValues form)
                end in
  if truthy_attr key then VObj (Obj.set (to_key key) valobj []) else valobj.

(** ** Submission *)

(** The global namespace that [stringToFunction] walks. *)
Unset Elimination Schemes.
Inductive wval : Type :=
| WUndefined
| WFunction (id : string)
| WObject (members : list (string * wval))
| WOther.
Set Elimination Schemes.

(** [context[k]] *)
Definition member (context : wval) (k : string) : outcome wval :=
  match context with
  | WUndefined => TypeError
  | WObject members =>
      Ok match Obj.get k members with Some v => v | None => WUndefined end
  | _ => Ok WUndefined
  end.

Inductive callback : Type :=
| CbNull
| CbFalse
| CbFunction (id : string).

Fixpoint walk (context : wval) (namespaces : list string) : outcome wval :=
  match namespaces with
  | [] => Ok context
  | ns :: rest =>
      match member context ns with
      | Ok context' => walk context' rest
      | TypeError => TypeError
      end
  end.

Definition stringToFunction (functionName : string) (context : wval)
  : outcome callback :=
  let (piece, pieces) := split "."%char functionName in
  let func := last pieces piece in
  let namespaces := removelast (piece :: pieces) in
  match walk context namespaces with
  | TypeError => TypeError
  | Ok context' =>
      match member context' func with
      | TypeError => TypeError
      | Ok (WFunction id) => Ok (CbFunction id)
      | Ok _ => Ok CbFalse
      end
  end.

(** The collaborators of a submission: the global object and the names of
    the functions that the transport object [Http] exposes. *)
Record environment : Type := mkEnvironment {
  window : wval;
  Http : list string
}.

Record request : Type := mkRequest {
  verb : string;
  url : string;
  params : tree;
  callback_of : callback
}.

(** What a submission can change: the form recorded last, the reports
    written with [console.log] (the trace of [log] is not among them) and
    the calls made on the transport. *)
Record state : Type := mkState {
  last_action_form : option form;
  console : list string;
  requests : list request
}.

Inductive completion : Type := Normal | Thrown.

Definition missing_attributes_message : string :=
  "To submit, the form element needs these attributes: `action`, being the URL to send the data to, and `method`, being the HTTP verb to use, either 'get' or 'post'".

(** [(chk = form.getAttribute(conf.elem_callback_attr))
      ? stringToFunction(chk) : null]; the option is named
    [elem_attr_callback] in the later revision. *)
Definition callbackFor (env : environment) (c : conf) (form : form)
  : outcome callback :=
  let chk := or_null (formAttribute (elem_attr_callback c) form) in
  if truthy_attr chk then stringToFunction (to_key chk) (window env)
  else Ok CbNull.

Definition handleSubmission (env : environment) (c : conf) (form : form)
    (st : state) : state * completion :=
  let url := or_null (formAttribute "action" form) in
  let method := or_null (formAttribute "method" form) in
  if (truthy_attr url && truthy_attr method)%bool then
    match callbackFor env c form with
    | TypeError => (st, Thrown)
    | Ok func =>
        let vals := toObject c form (data_transform_func c) in
        let st' := {| last_action_form := Some form;
                      console := console st;
                      requests := requests st |} in
        if existsb (String.eqb (to_key method)) (Http env) then
          ({| last_action_form := Some form;
              console := console st;
              requests := requests st ++
                          [ {| verb := to_key method; url := to_key url;
                               params := vals; callback_of := func |} ] |},
           Normal)
        else (st', Thrown)
    end
  else
    ({| last_action_form := last_action_form st;
        console := console st ++ [missing_attributes_message];
        requests := requests st |}, Normal).

(** ** Clearing *)

Definition with_value (v : string) (e : element) : element :=
  {| tagName := tagName e; attributes := attributes e; Dom.value := v |}.

(** [elems[n].value = v] for [elems = getElementsByTagName(tag)], on the
    document; [None] when [elems[n]] is [undefined]. *)
Fixpoint set_value_of_nth (tag : string) (n : nat) (v : string)
    (elems : list element) : option (list element) :=
  match elems with
  | [] => None
  | e :: rest =>
      if tagName e =? tag then
        match n with
        | 0 => Some (with_value v e :: rest)
        | S n' => option_map (cons e) (set_value_of_nth tag n' v rest)
        end
      else option_map (cons e) (set_value_of_nth tag n v rest)
  end.

(** The inner loop of [clearFormValues], over the indices [i] still to visit *)
Fixpoint clear_each (fixed tag : string) (indices : list nat) (f : form)
  : form * completion :=
  match indices with
  | [] => (f, Normal)
  | i :: indices' =>
      match nth_error (getElementsByTagName tag f) i with
      | None => (f, Thrown)
      | Some elem =>
          if hasAttribute fixed elem then clear_each fixed tag indices' f
          else
            match set_value_of_nth tag 1 EmptyString (descendants f) with
            | Some ds =>
                clear_each fixed tag indices'
                  {| form_attributes := form_attributes f; descendants := ds |}
            | None => (f, Thrown)
            end
      end
  end.

Fixpoint clear_tags (fixed : string) (tags : list string) (f : form)
  : form * completion :=
  match tags with
  | [] => (f, Normal)
  | tag :: tags' =>
      let n := List.length (getElementsByTagName tag f) in
      match clear_each fixed tag (seq 0 n) f with
      | (f', Normal) => clear_tags fixed tags' f'
      | (f', Thrown) => (f', Thrown)
      end
  end.

Definition clearFormValues (c : conf) (f : form) : form * completion :=
  clear_tags (elem_attr_fixed c) input_types f.

(** ** Sample documents *)

(** A transport with the two public methods that the sources name: the
    diagnostic of [handleSubmission] asks for a [method] that is
    ['get'] or ['post']. *)
Definition get_post_env : environment :=
  {| window := WObject []; Http := ["get"; "post"] |}.

Definition plain_conf : conf :=
  {| elem_attr_trigger := "action";
     elem_attr_callback := "onreturn";
     elem_attr_fixed := "disabled";
     data_transform_func := None;
     unnamed_form_key := ANull;
     log := false |}.

Definition initial_state : state :=
  {| last_action_form := None; console := []; requests := [] |}.

Definition email_input : element :=
  {| tagName := "input"; attributes := [("name", "email")];
     Dom.value := "what@evv.err" |}.

Definition disabled_input : element :=
  {| tagName := "input"; attributes := [("name", "id"); ("disabled", EmptyString)];
     Dom.value := "42" |}.


Definition post_form : form :=
  {| form_attributes := [("name", "new-user"); ("action", "/api/users");
                         ("method", "post")];
     descendants := [email_input] |}.

Definition two_input_form : form :=
  {| form_attributes := [("name", "new-user")];
     descendants := [email_input; disabled_input] |}.

End Informer.

(** * The constructor revision: group / pargroup gathering

    [function Informer(params) { ... }], first document of src/informer.js. *)

Module InformerClass.
Import Dom.

(** An entry of the [elements] array *)
Record elem : Type := mkElem {
  name : attr;
  val : string;
  group : attr;
  pargroup : attr
}.

Definition buildElementsArray (caller : form) : list elem :=
  flat_map
    (fun tag =>
       map (fun e => {| name := or_null (getAttribute "name" e);
                        val := Dom.value e;
                        group := or_false (getAttribute "group" e);
                        pargroup := or_false (getAttribute "pargroup" e) |})
           (getElementsByTagName tag caller))
    input_types.

(** Whether [s[k]] is defined for a string [s]: its [length], the indices
    of its code units, and the members that a string inherits. *)
Definition str_has (s k : string) : bool :=
  (k =? "length") ||
  match Obj.array_index k with
  | Some i => (i <? utf16_length s)%N
  | None => false
  end ||
  existsb (String.eqb k) string_members || inherited k.

(** [if (!vals[g]) { vals[g] = { }; }]; [vals[g]] is read through the
    prototype, so that a member which [vals] inherits counts as there. *)
Definition ensureObject (g : string) (vals : obj) : obj :=
  if truthy (read g vals) then vals else Obj.set g (VObj []) vals.

(** [vals[g][n] = v]: a write into a string is dropped (the script does not
    run in strict mode), a write onto a function lands on that function and
    leaves [vals] as it is, a write into [undefined] throws. *)
Definition assignIn (g n v : string) (vals : obj) : outcome obj :=
  match read g vals with
  | Some (VObj members) =>
      Ok (Obj.set g (VObj (Obj.set n (VStr v) members)) vals)
  | Some (VStr _) => Ok vals
  | Some (VFun _) => Ok vals
  | None => TypeError
  end.

(** The two statements run on [vals[elem['pargroup']]] once the key is found.
    When that value is a string, the first assignment is dropped and the
    second one throws unless the string has the property; on a function
    both assignments go to the function. *)
Definition insertUnder (e : elem) (parent : tree) : outcome tree :=
  match parent with
  | VObj members =>
      match assignIn (to_key (group e)) (to_key (name e)) (val e)
                     (ensureObject (to_key (group e)) members) with
      | Ok members' => Ok (VObj members')
      | TypeError => TypeError
      end
  | VStr s =>
      if str_has s (to_key (group e)) then Ok parent else TypeError
  | VFun _ => Ok parent
  end.

(** Whether [vals.hasOwnProperty] can be called: an own property of that
    name which is a string or an object cannot. *)
Definition hasOwnProperty_callable (vals : obj) : bool :=
  match Obj.get "hasOwnProperty" vals with
  | Some (VStr _) | Some (VObj _) => false
  | _ => true
  end.

(** The [scan] loop of [addElementToValues] for an element with a pargroup,
    over the properties [props] that the loop still has to visit, all of
    them own properties; [recur] is the recursive call
    [addElementToValues(elem, vals[key])].  The boolean tells whether
    [added] was set. *)
Fixpoint scanLoop (recur : tree -> outcome (tree * bool)) (e : elem)
    (props : obj) {struct props} : outcome (obj * bool) :=
  match props with
  | [] => Ok ([], false)
  | (key, x) :: props' =>
      if key =? to_key (pargroup e) then
        match insertUnder e x with
        | Ok x' => Ok ((key, x') :: props', true)
        | TypeError => TypeError
        end
      else
        match x with
        | VObj _ =>
            match recur x with
            | Ok (x', added) =>
                match scanLoop recur e props' with
                | Ok (props'', added') =>
                    Ok ((key, x') :: props'', (added || added')%bool)
                | TypeError => TypeError
                end
            | TypeError => TypeError
            end
        | _ =>
            match scanLoop recur e props' with
            | Ok (props'', added') => Ok ((key, x) :: props'', added')
            | TypeError => TypeError
            end
        end
  end.

(** The loop on an object: its test [vals.hasOwnProperty(key)] throws at the
    first key when [hasOwnProperty] cannot be called. *)
Fixpoint scanValue (e : elem) (v : tree) {struct v} : outcome (tree * bool) :=
  match v with
  | VObj vals =>
      if hasOwnProperty_callable vals then
        match scanLoop (scanValue e) e vals with
        | Ok (vals', added) => Ok (VObj vals', added)
        | TypeError => TypeError
        end
      else TypeError
  | _ => Ok (v, false)
  end.

(** The loop over the keys that are left *)
Definition scanKeys (e : elem) (props : obj) : outcome (obj * bool) :=
  scanLoop (scanValue e) e props.

Definition scanProps (e : elem) (vals : obj) : outcome (obj * bool) :=
  if hasOwnProperty_callable vals then scanKeys e vals else TypeError.

(** [addElementToValues(elem, values)]; the boolean is the value of [added]
    afterwards, [added] being false before the call. *)
Definition addElementToValues (e : elem) (vals : obj) : outcome (obj * bool) :=
  if truthy_attr (pargroup e) then scanProps e vals
  else if truthy_attr (group e) then
    match assignIn (to_key (group e)) (to_key (name e)) (val e)
                   (ensureObject (to_key (group e)) vals) with
    | Ok vals' => Ok (vals', true)
    | TypeError => TypeError
    end
  else Ok (Obj.set (to_key (name e)) (VStr (val e)) vals, true).

(** One run of the [for] loop of [loopOnElements]; [None] is a deleted entry
    of [elements]; the boolean is [recur]. *)
Fixpoint pass (baseIsSet : bool) (elements : list (option elem)) (values : obj)
  : outcome (list (option elem) * obj * bool) :=
  match elements with
  | [] => Ok ([], values, false)
  | None :: elements' =>
      match pass baseIsSet elements' values with
      | Ok (rest, values', recur) => Ok (None :: rest, values', recur)
      | TypeError => TypeError
      end
  | Some e :: elements' =>
      if (negb (truthy_attr (pargroup e)) || baseIsSet)%bool then
        match addElementToValues e values with
        | Ok (values', added) =>
            match pass baseIsSet elements' values' with
            | Ok (rest, values'', recur) =>
                Ok ((if added then None else Some e) :: rest, values'',
                    (added || recur)%bool)
            | TypeError => TypeError
            end
        | TypeError => TypeError
        end
      else
        match pass baseIsSet elements' values with
        | Ok (rest, values', recur) => Ok (Some e :: rest, values', recur)
        | TypeError => TypeError
        end
  end.

(** [loopOnElements(baseIsSet)].  The recursion of the source is bounded here
    by [fuel], [None] meaning that the bound was reached; the last component
    of the result counts the calls of [loopOnElements], this one included. *)
Fixpoint loopOnElements (fuel : nat) (baseIsSet : bool)
    (elements : list (option elem)) (values : obj)
  : option (outcome (list (option elem) * obj * nat)) :=
  match fuel with
  | 0 => None
  | S fuel' =>
      match pass baseIsSet elements values with
      | TypeError => Some TypeError
      | Ok (elements', values', recur) =>
          if recur then
            match loopOnElements fuel' true elements' values' with
            | Some (Ok (elements'', values'', passes)) =>
                Some (Ok (elements'', values'', S passes))
            | other => other
            end
          else Some (Ok (elements', values', 1))
      end
  end.

(** The entries of [elements] that were not deleted *)
Fixpoint remaining (elements : list (option elem)) : list elem :=
  match elements with
  | [] => []
  | Some e :: elements' => e :: remaining elements'
  | None :: elements' => remaining elements'
  end.

Definition decimal (n : nat) : string :=
  DecimalString.NilEmpty.string_of_uint (Nat.to_uint n).

Definition warning_line : string := "WARNING: potential information loss.".

Definition count_line (n : nat) : string :=
  "There are " ++ decimal n ++
  " unnecessary pargroup attributes. They are unnecessary because they do not specify parent groups in the form hierarchy.".

Definition heading_line : string :=
  "These pargroups do not occur in form's hierarchy:".

Definition advice_line : string :=
  "Since they do not specify a parent group, it would be best to remove the pargroup attributes from the elements and just use the group attribute instead. As it is, their values are not included in the form's values object".

(** The lines that [displayErrors] writes to the console *)
Definition displayErrors (elements : list (option elem)) : list string :=
  let orphans := remaining elements in
  match orphans with
  | [] => []
  | _ :: _ =>
      ([warning_line; count_line (List.length orphans); heading_line]
       ++ map (fun o => to_key (pargroup o)) orphans
       ++ [advice_line])%list
  end.

Record gathered : Type := mkGathered {
  values : obj;              (* [this.values] *)
  left : list (option elem); (* [elements] when the loop has ended *)
  orphans : list elem;       (* the entries left in it *)
  console : list string;
  passes : nat               (* calls of [loopOnElements] *)
}.

(** The main routine of [gatherTheValues] on the array that
    [buildElementsArray] fills; one call of [loopOnElements] more than there
    are elements is always enough (see [loopOnElements_terminates]). *)
Definition gatherElements (elements : list elem) : option (outcome gathered) :=
  match loopOnElements (S (List.length elements)) false
                       (map Some elements) [] with
  | None => None
  | Some TypeError => Some TypeError
  | Some (Ok (elements', values', n)) =>
      Some (Ok {| values := values';
                  left := elements';
                  orphans := remaining elements';
                  console := displayErrors elements';
                  passes := n |})
  end.

Definition gatherTheValues (caller : form) : option (outcome gathered) :=
  gatherElements (buildElementsArray caller).



(** The number of entries of [elements] not deleted yet *)
Definition alive (elements : list (option elem)) : nat :=
  List.length (remaining elements).

(** An entry is the same after a pass, or it was deleted. *)
Definition kept_or_deleted (x x' : option elem) : Prop := x' = x \/ x' = None.

(** What one scan does when it returns: it reports [added] exactly when the
    pargroup is a key somewhere in the value, and changes nothing when it
    reports nothing. *)
Definition scan_result (e : elem) (v : tree) (r : outcome (tree * bool)) : Prop :=
  match r with
  | Ok (v', added) =>
      added = has_key_deep (to_key (pargroup e)) v /\ (added = false -> v' = v)
  | TypeError => True
  end.

(** ** Sample records *)

Definition field (n v : string) : elem :=
  {| name := AStr n; val := v; group := AFalse; pargroup := AFalse |}.

Definition grouped (g n v : string) : elem :=
  {| name := AStr n; val := v; group := AStr g; pargroup := AFalse |}.

Definition nested (p g n v : string) : elem :=
  {| name := AStr n; val := v; group := AStr g; pargroup := AStr p |}.


(** Two radio buttons of one name: every input is collected, whichever is
    checked. *)
Definition plan_choice : list elem :=
  [field "plan" "basic"; field "plan" "pro"].

(** A group nested under another one that exists, and a group nested under
    a parent that no element ever sets up. *)
Definition login_and_stray : list elem :=
  [grouped "login" "email" "what@evv.err";
   nested "login" "recovery" "phone" "555-0100";
   nested "x" "personal" "f_name" "Taylor"].

(** [billing] and [address] at the root, a second [address] under
    [billing], and a [geo] group that names [address] as its parent. *)
Definition billing_and_address : list elem :=
  [grouped "billing" "card" "4111";
   grouped "address" "city" "Oslo";
   nested "billing" "address" "zip" "0150";
   nested "address" "geo" "lat" "59.9"].

Definition nothing_gathered : gathered :=
  {| values := []; left := []; orphans := []; console := []; passes := 0 |}.

Definition gathered_of (elements : list elem) : gathered :=
  match gatherElements elements with
  | Some (Ok g) => g
  | _ => nothing_gathered
  end.

Definition login_and_stray_gathered : gathered :=
  Eval vm_compute in gathered_of login_and_stray.

Definition billing_and_address_gathered : gathered :=
  Eval vm_compute in gathered_of billing_and_address.

End InformerClass.

(** * The configuration store (src/readme.md) *)

Module Config.

Section Store.
(** The values that options take *)
Variable V : Type.

Record store : Type := mkStore {
  conf : Obj.t V;
  conf_bk : option (Obj.t V)   (* [None]: [null] *)
}.

(** Modelled from the spec: [Utils.sieve], which [makeNewConf] calls, is not
    part of the sources.  The specification says that setting the
    configuration merges only recognized keys, unrecognized ones being
    dropped, and that the previous configuration stays available as a
    snapshot: [sieve model obj] is a new object with the keys of [model],
    each with the value [obj] gives it, or else the value [model] has. *)
Definition sieve (model obj : Obj.t V) : Obj.t V :=
  map (fun kv => (fst kv,
                  match Obj.get (fst kv) obj with
                  | Some v => v
                  | None => snd kv
                  end)) model.

(** The new store and the value returned *)
Definition makeNewConf (conf_obj : Obj.t V) (st : store) : store * Obj.t V :=
  let new_conf := sieve (conf st) conf_obj in
  ({| conf := new_conf; conf_bk := Some (conf st) |}, new_conf).

Definition resetConfToDefault (st : store) : store * Obj.t V :=
  match conf_bk st with
  | Some bk => ({| conf := bk; conf_bk := None |}, bk)
  | None => (st, conf st)
  end.
End Store.

Arguments conf {V} s.
Arguments conf_bk {V} s.
Arguments sieve {V} model obj.
Arguments makeNewConf {V} conf_obj st.
Arguments resetConfToDefault {V} st.

End Config.

(** * Paths of records and shapes of trees *)

Module Paths.
Import Informer.

(** The keys under which [groupValues] writes the value of a record, from
    the root down: the pieces of the group, then the name. *)
Definition record_path (r : value_object) : list string :=
  if truthy_attr (group r) then
    let (key0, keys') := split ":"%char (to_key (group r)) in
    key0 :: keys' ++ [to_key (name r)]
  else [to_key (name r)].


(** Two paths part ways: they differ at a position that both have. *)
Fixpoint diverge (p q : list string) : bool :=
  match p, q with
  | a :: p', b :: q' => if a =? b then diverge p' q' else true
  | _, _ => false
  end.

(** No object of the value, at any depth, has a key twice. *)
Fixpoint distinct_keys (v : tree) {struct v} : Prop :=
  match v with
  | VStr _ | VFun _ => True
  | VObj o =>
      NoDup (Obj.keys o) /\
      (fix all (props : obj) {struct props} : Prop :=
         match props with
         | [] => True
         | (_, x) :: props' => distinct_keys x /\ all props'
         end) o
  end.

Fixpoint distinct_keys_in (props : obj) {struct props} : Prop :=
  match props with
  | [] => True
  | (_, x) :: props' => distinct_keys x /\ distinct_keys_in props'
  end.

End Paths.

(** * Events, the enclosing form and the public methods *)

Module Events.
Import Dom Informer.

(** Whether the character occurs in the string *)
Fixpoint contains (c : ascii) (s : string) : bool :=
  match s with
  | EmptyString => false
  | String c' s' => (Ascii.eqb c' c || contains c s')%bool
  end.

(** A node of the document as the search for a form sees it: its [tagName]
    ([None] for a node that has none, such as a text node or the document),
    whether it is [document.body], and its attributes and descendants. *)
Record node : Type := mkNode {
  nodeTag : option string;
  isBody : bool;
  asForm : form
}.

(** [getNearestParent(source, tagname)] of the module revision, on the chain
    [source, source.parentNode, ...] up to the node whose [parentNode] is
    [null]; [Ok None] is the answer [false]. *)
Fixpoint getNearestParent (chain : list node) (tagname : string)
  : outcome (option node) :=
  match chain with
  | [] => TypeError
  | elem :: parents =>
      match present (nodeTag elem) with
      | None => getNearestParent parents tagname
      | Some tag =>
          if (negb (toLowerCase tag =? tagname) && negb (isBody elem))%bool
          then getNearestParent parents tagname
          else if isBody elem then Ok None else Ok (Some elem)
      end
  end.

(** [getCallerFromEvent] of the constructor revision, on the chain that
    starts at [evt.target]; [Ok None] is the answer [false], with
    [this.caller] left on the body. *)
Fixpoint getCallerFromEvent (chain : list node) : outcome (option node) :=
  match chain with
  | [] => TypeError
  | caller :: parents =>
      if isBody caller then Ok None
      else
        match nodeTag caller with
        | None => TypeError
        | Some tag =>
            if toLowerCase tag =? "form" then Ok (Some caller)
            else getCallerFromEvent parents
        end
  end.

(** An event: its [type] and the chain of [event.target || event.srcElement],
    empty when the event has neither. *)
Record event : Type := mkEvent {
  type : string;
  target : list node
}.

(** [getFormFromEvent(evt)], [current] being [window.event] *)
Definition getFormFromEvent (evt current : option event)
  : outcome (option node) :=
  match (match evt with Some e => Some e | None => current end) with
  | None => TypeError
  | Some e => getNearestParent (target e) "form"
  end.

Definition not_callable_message : string :=
  "The form's `action` attribute doesn't name a function callable by Informer.".

(** [handleAction(form)]; the second component lists the functions called,
    each with the form it was given.  What the function called does is not
    part of the program. *)
Definition handleAction (env : environment) (c : conf) (form : form)
    (st : state) : state * list (string * Dom.form) * completion :=
  let func := or_null (formAttribute (elem_attr_trigger c) form) in
  let refused :=
    ({| last_action_form := last_action_form st;
        console := console st ++ [not_callable_message];
        requests := requests st |}, [], Normal) in
  if truthy_attr func then
    match stringToFunction (to_key func) (window env) with
    | TypeError => (st, [], Thrown)
    | Ok (CbFunction id) =>
        ({| last_action_form := Some form;
            console := console st;
            requests := requests st |}, [(id, form)], Normal)
    | Ok _ => refused
    end
  else refused.

(** The public method [trigger(evt)] *)
Definition trigger (env : environment) (c : conf) (evt current : option event)
    (st : state) : state * list (string * Dom.form) * completion :=
  match getFormFromEvent evt current with
  | TypeError => (st, [], Thrown)
  | Ok None => (st, [], Normal)
  | Ok (Some n) => handleAction env c (asForm n) st
  end.

(** Whether the element is of one of the kinds that the program scans *)
Definition scanned (e : element) : bool :=
  existsb (fun tag => tagName e =? tag) input_types.

(** Whether a node is a form element *)
Definition is_form (n : node) : bool :=
  match nodeTag n with
  | Some tag => toLowerCase tag =? "form"
  | None => false
  end.


End Events.

(** * Where keys and leaves come from *)

Module Provenance.

(** Every key of the value, at any depth, satisfies [K] and every leaf
    satisfies [L]. *)
Fixpoint tree_all (K L : string -> Prop) (v : tree) {struct v} : Prop :=
  match v with
  | VStr s => L s
  | VFun _ => True
  | VObj o =>
      (fix all (props : obj) {struct props} : Prop :=
         match props with
         | [] => True
         | (k, x) :: props' => K k /\ tree_all K L x /\ all props'
         end) o
  end.

Fixpoint props_all (K L : string -> Prop) (props : obj) {struct props} : Prop :=
  match props with
  | [] => True
  | (k, x) :: props' => K k /\ tree_all K L x /\ props_all K L props'
  end.

(** An element whose name, group and value are allowed *)
Definition allowed (K L : string -> Prop) (e : InformerClass.elem) : Prop :=
  K (to_key (InformerClass.name e)) /\ K (to_key (InformerClass.group e)) /\
  L (InformerClass.val e).

(** The keys that the elements can give: their names and their groups *)
Definition key_of (elements : list InformerClass.elem) (k : string) : Prop :=
  exists e, In e elements /\
            (k = to_key (InformerClass.name e) \/
             k = to_key (InformerClass.group e)).

(** The leaves that the elements can give: their values *)
Definition value_of (elements : list InformerClass.elem) (s : string) : Prop :=
  exists e, In e elements /\ s = InformerClass.val e.

(** The key holds a string at the root of the values. *)
Definition string_at (k : string) (vals : obj) : Prop :=
  exists s, Obj.get k vals = Some (VStr s).

(** A key under which no string has a property: neither [length], nor an
    index, nor a member that strings inherit *)
Definition plain_key (k : string) : Prop :=
  (k =? "length") = false /\ Obj.array_index k = None /\
  existsb (String.eqb k) string_members = false /\ inherited k = false.

(** The element does not open a group of the name [k] at the root. *)
Definition no_root_group (k : string) (e : InformerClass.elem) : Prop :=
  truthy_attr (InformerClass.pargroup e) = false ->
  truthy_attr (InformerClass.group e) = true ->
  to_key (InformerClass.group e) <> k.

(** Whether the element names a group under which its value is written: it
    has a group, or it has a pargroup, under which its group, were it
    [false], is a key like any other. *)
Definition uses_group (e : InformerClass.elem) : bool :=
  (truthy_attr (InformerClass.group e) ||
   truthy_attr (InformerClass.pargroup e))%bool.


(** Whether the key [k] holds the leaf [s], being the key [n] *)
Definition own_leaf (n s k : string) (x : tree) : nat :=
  match x with
  | VStr s' => if ((k =? n) && (s' =? s))%bool then 1 else 0
  | _ => 0
  end.

(** The number of leaves of a value that hold the string [s] under the key
    [n] *)
Fixpoint named_leaf_count (n s : string) (v : tree) {struct v} : nat :=
  match v with
  | VObj o =>
      (fix sum (props : obj) {struct props} : nat :=
         match props with
         | [] => 0
         | (k, x) :: props' =>
             own_leaf n s k x + named_leaf_count n s x + sum props'
         end) o
  | _ => 0
  end.

Fixpoint named_leaf_count_in (n s : string) (props : obj) {struct props}
  : nat :=
  match props with
  | [] => 0
  | (k, x) :: props' =>
      own_leaf n s k x + named_leaf_count n s x +
      named_leaf_count_in n s props'
  end.

(** A key that holds a string satisfies [S], a key that holds an object
    satisfies [O], and no key holds a function. *)
Definition kind_ok (S O : string -> Prop) (k : string) (x : tree) : Prop :=
  match x with
  | VStr _ => S k
  | VObj _ => O k
  | VFun _ => False
  end.

Fixpoint kinds_all (S O : string -> Prop) (v : tree) {struct v} : Prop :=
  match v with
  | VObj o =>
      (fix all (props : obj) {struct props} : Prop :=
         match props with
         | [] => True
         | (k, x) :: props' => kind_ok S O k x /\ kinds_all S O x /\ all props'
         end) o
  | _ => True
  end.

Fixpoint kinds_in (S O : string -> Prop) (props : obj) {struct props} : Prop :=
  match props with
  | [] => True
  | (k, x) :: props' =>
      kind_ok S O k x /\ kinds_all S O x /\ kinds_in S O props'
  end.

End Provenance.

(** * The two revisions side by side *)

Module Revisions.
Import Dom.

(** The entry that [buildElementsArray] pushes for an element *)
Definition entry_of (e : element) : InformerClass.elem :=
  {| InformerClass.name := or_null (getAttribute "name" e);
     InformerClass.val := Dom.value e;
     InformerClass.group := or_false (getAttribute "group" e);
     InformerClass.pargroup := or_false (getAttribute "pargroup" e) |}.

(** An element that has a name, no pargroup and no colon in its group, and
    whose name and group are not names of members that objects inherit *)
Definition flat (e : element) : Prop :=
  present (getAttribute "pargroup" e) = None /\
  (exists n, present (getAttribute "name" e) = Some n /\
             inherited n = false) /\
  forall g, present (getAttribute "group" e) = Some g ->
            Events.contains ":"%char g = false /\ inherited g = false.

(** The name of a scanned element of the form that has no group *)
Definition plain_name (f : form) (k : string) : Prop :=
  exists e, In e (descendants f) /\ Events.scanned e = true /\
            present (getAttribute "group" e) = None /\
            present (getAttribute "name" e) = Some k.

Definition account_form : form :=
  {| form_attributes := [("name", "signup")];
     descendants :=
       [ {| tagName := "input";
            attributes := [("name", "email"); ("group", "account")];
            Dom.value := "what@evv.err" |};
         {| tagName := "select"; attributes := [("name", "plan")];
            Dom.value := "basic" |};
         {| tagName := "input";
            attributes := [("name", "login"); ("group", "account")];
            Dom.value := "taylor" |} ] |}.

End Revisions.

(** * Submission in the constructor revision *)

Module ClassSubmission.
Import Dom.

(** The call made on [Http]: the function called and the fields of its
    argument, [params] being an object of one key. *)
Record call : Type := mkCall {
  via : string;
  url : attr;
  key : string;
  data : string
}.

(** [submitTheValues()] for [this.caller = caller] and
    [this.values = values]; [stringify] stands for [JSON.stringify] and
    [Http] lists the names under which the object [Http] has a function.
    The result gives the lines written to the console and the call made,
    [TypeError] when the statement that makes it throws. *)
Definition submitTheValues (stringify : obj -> string) (Http : list string)
    (caller : form) (values : obj) : list string * outcome call :=
  let name := or_null (formAttribute "name" caller) in
  let id := or_null (formAttribute "id" caller) in
  let k := if truthy_attr name then name else id in
  let key := if truthy_attr name then to_key name
             else if truthy_attr id then to_key id else "json" in
  let action := or_null (formAttribute "action" caller) in
  let method := or_null (formAttribute "method" caller) in
  ([ (to_key k ++ "=" ++ stringify values)%string;
     ("Going to: " ++ to_key action ++ " via " ++ to_key method)%string ],
   match method with
   | AStr m =>
       if existsb (String.eqb (toLowerCase m)) Http then
         Ok {| via := toLowerCase m;
               url := action;
               key := key;
               data := stringify values |}
       else TypeError
   | _ => TypeError
   end).

Definition nameless_form : form :=
  {| form_attributes := [("action", "/api/users")];
     descendants := [Informer.email_input] |}.

End ClassSubmission.

(** * Properties *)

(** ** Own-property lists *)

Section ObjFacts.
Variable A : Type.
Implicit Types (o : Obj.t A) (k : string) (v : A).

Lemma get_replace_same k v o :
  Obj.get k o <> None -> Obj.get k (Obj.replace k v o) = Some v.
Proof.
  induction o as [|[k' v'] o IH]; simpl; intros H.
  - congruence.
  - destruct (k' =? k) eqn:E; simpl; rewrite E; auto.
Qed.

Lemma get_replace_other k k' v o :
  k' <> k -> Obj.get k' (Obj.replace k v o) = Obj.get k' o.
Proof.
  intros Hne. induction o as [|[k0 v0] o IH]; simpl; auto.
  destruct (k0 =? k) eqn:E; simpl.
  - apply String.eqb_eq in E. subst k0.
    destruct (k =? k') eqn:E'; auto.
    apply String.eqb_eq in E'. congruence.
  - destruct (k0 =? k'); auto.
Qed.

Lemma get_insert_index_same i k v o :
  Obj.get k o = None -> Obj.get k (Obj.insert_index i k v o) = Some v.
Proof.
  induction o as [|[k' v'] o IH]; simpl; intros H.
  - now rewrite String.eqb_refl.
  - destruct (k' =? k) eqn:E; [discriminate|].
    destruct (Obj.array_index k') as [j|]; simpl.
    + destruct (j <? i)%N; simpl.
      * rewrite E. auto.
      * now rewrite String.eqb_refl.
    + now rewrite String.eqb_refl.
Qed.

Lemma get_insert_index_other i k k' v o :
  k' <> k -> Obj.get k' (Obj.insert_index i k v o) = Obj.get k' o.
Proof.
  intros Hne.
  assert (Hk : (k =? k') = false) by (apply String.eqb_neq; congruence).
  induction o as [|[k0 v0] o IH]; simpl.
  - now rewrite Hk.
  - destruct (Obj.array_index k0) as [j|]; simpl.
    + destruct (j <? i)%N; simpl.
      * now rewrite IH.
      * now rewrite Hk.
    + now rewrite Hk.
Qed.

Lemma get_app k o o' :
  Obj.get k (o ++ o') =
  match Obj.get k o with Some v => Some v | None => Obj.get k o' end.
Proof.
  induction o as [|[k0 v0] o IH]; simpl; auto.
  destruct (k0 =? k); auto.
Qed.

Lemma get_set_same k v o : Obj.get k (Obj.set k v o) = Some v.
Proof.
  unfold Obj.set. destruct (Obj.get k o) eqn:G.
  - apply get_replace_same. congruence.
  - destruct (Obj.array_index k).
    + now apply get_insert_index_same.
    + rewrite get_app, G. simpl. now rewrite String.eqb_refl.
Qed.

Lemma get_set_other k k' v o :
  k' <> k -> Obj.get k' (Obj.set k v o) = Obj.get k' o.
Proof.
  intros Hne. unfold Obj.set. destruct (Obj.get k o) eqn:G.
  - now apply get_replace_other.
  - destruct (Obj.array_index k).
    + now apply get_insert_index_other.
    + rewrite get_app. simpl.
      assert (Hk : (k =? k') = false) by (apply String.eqb_neq; congruence).
      rewrite Hk. now destruct (Obj.get k' o).
Qed.

Lemma get_not_in k o : ~ In k (Obj.keys o) -> Obj.get k o = None.
Proof.
  induction o as [|[k0 v0] o IH]; simpl; intros H; auto.
  destruct (k0 =? k) eqn:E.
  - apply String.eqb_eq in E. tauto.
  - apply IH. tauto.
Qed.

Lemma set_nil k v : Obj.set k v [] = [(k, v)].
Proof.
  unfold Obj.set. simpl. now destruct (Obj.array_index k).
Qed.
End ObjFacts.

Lemma replace_replace (A : Type) k (a b : A) : forall o,
  Obj.replace k b (Obj.replace k a o) = Obj.replace k b o.
Proof.
  induction o as [|[k' v'] o IH]; simpl; [reflexivity|].
  destruct (k' =? k) eqn:E; simpl; rewrite E; [reflexivity|now rewrite IH].
Qed.

Lemma replace_insert_index (A : Type) i k (a b : A) : forall o,
  Obj.get k o = None ->
  Obj.replace k b (Obj.insert_index i k a o) = Obj.insert_index i k b o.
Proof.
  induction o as [|[k' v'] o IH]; simpl; intros H.
  - now rewrite String.eqb_refl.
  - destruct (k' =? k) eqn:E; [discriminate|].
    destruct (Obj.array_index k') as [j|]; simpl.
    + destruct (j <? i)%N; simpl.
      * now rewrite E, IH.
      * now rewrite String.eqb_refl.
    + now rewrite String.eqb_refl.
Qed.

Lemma replace_app_new (A : Type) k (a b : A) : forall o,
  Obj.get k o = None ->
  Obj.replace k b (o ++ [(k, a)]) = o ++ [(k, b)].
Proof.
  induction o as [|[k' v'] o IH]; simpl; intros H.
  - now rewrite String.eqb_refl.
  - destruct (k' =? k) eqn:E; [discriminate|]. now rewrite IH.
Qed.

Lemma set_set (A : Type) k (a b : A) o :
  Obj.set k b (Obj.set k a o) = Obj.set k b o.
Proof.
  unfold Obj.set at 1. rewrite get_set_same.
  unfold Obj.set. destruct (Obj.get k o) eqn:G.
  - apply replace_replace.
  - destruct (Obj.array_index k).
    + now apply replace_insert_index.
    + now apply replace_app_new.
Qed.

(** ** Trees *)

Lemma has_key_deep_obj k o : has_key_deep k (VObj o) = has_key_in k o.
Proof.
  induction o as [|[key x] o IH]; [reflexivity|].
  simpl in *. now rewrite IH.
Qed.

Lemma leaf_count_obj s o : leaf_count s (VObj o) = leaf_count_in s o.
Proof.
  induction o as [|[key x] o IH]; [reflexivity|].
  simpl in *. now rewrite IH.
Qed.

Lemma leaf_count_replace s k x old : forall o,
  Obj.get k o = Some old ->
  leaf_count_in s (Obj.replace k x o) + leaf_count s old =
  leaf_count_in s o + leaf_count s x.
Proof.
  induction o as [|[k0 v0] o IH]; simpl; intros H; [discriminate|].
  destruct (k0 =? k); simpl.
  - injection H as ->. lia.
  - specialize (IH H). lia.
Qed.

Lemma leaf_count_insert_index s i k x : forall o,
  leaf_count_in s (Obj.insert_index i k x o) =
  leaf_count_in s o + leaf_count s x.
Proof.
  induction o as [|[k0 v0] o IH]; simpl; [lia|].
  destruct (Obj.array_index k0) as [j|]; simpl; [|lia].
  destruct (j <? i)%N; simpl; lia.
Qed.

Lemma leaf_count_app s : forall o o',
  leaf_count_in s (o ++ o') = leaf_count_in s o + leaf_count_in s o'.
Proof.
  induction o as [|[k0 v0] o IH]; simpl; intros o'; [reflexivity|].
  rewrite IH. lia.
Qed.

(** A write removes the leaves of the value it replaces and adds those of
    the value written. *)
Lemma leaf_count_set s k x o :
  leaf_count_in s (Obj.set k x o) +
  match Obj.get k o with Some old => leaf_count s old | None => 0 end =
  leaf_count_in s o + leaf_count s x.
Proof.
  unfold Obj.set. destruct (Obj.get k o) as [old|] eqn:G.
  - now apply leaf_count_replace.
  - destruct (Obj.array_index k).
    + rewrite leaf_count_insert_index. lia.
    + rewrite leaf_count_app. simpl. lia.
Qed.

Lemma leaf_count_nest s v : forall path,
  leaf_count s (nest path v) = leaf_count s v.
Proof.
  induction path as [|key path IH]; [reflexivity|].
  change (nest (key :: path) v) with (VObj [(key, nest path v)]).
  simpl. rewrite IH. lia.
Qed.

(** ** Keys and leaves of a kind *)

Section TreeAll.
Import Provenance.
Variables K L : string -> Prop.

Lemma tree_all_obj o : tree_all K L (VObj o) <-> props_all K L o.
Proof.
  induction o as [|[k x] o IH]; simpl in *; [tauto|]. rewrite IH. tauto.
Qed.

Lemma props_all_get k x : forall o,
  props_all K L o -> Obj.get k o = Some x -> tree_all K L x.
Proof.
  induction o as [|[k0 v0] o IH]; simpl; intros Hd Hg; [discriminate|].
  destruct (k0 =? k); [injection Hg as <-; tauto|apply IH; tauto].
Qed.

Lemma props_all_set k x o :
  props_all K L o -> K k -> tree_all K L x -> props_all K L (Obj.set k x o).
Proof.
  intros Ho Hk Hx. unfold Obj.set. destruct (Obj.get k o).
  - induction o as [|[k0 v0] o IH]; simpl in *; auto.
    destruct (k0 =? k); simpl; tauto.
  - destruct (Obj.array_index k) as [i|].
    + induction o as [|[k0 v0] o IH]; simpl in *; auto.
      destruct (Obj.array_index k0) as [j|]; simpl; [|tauto].
      destruct (j <? i)%N; simpl; tauto.
    + induction o as [|[k0 v0] o IH]; simpl in *; tauto.
Qed.

Lemma props_all_key k : forall o,
  props_all K L o -> has_key_in k o = true -> K k.
Proof.
  assert (H : forall v, tree_all K L v -> has_key_deep k v = true -> K k).
  { induction v as [s|o IH|m] using tree_ind; [discriminate| |discriminate].
    rewrite tree_all_obj, has_key_deep_obj.
    induction IH as [|[k0 x] o Hx _ IHo]; simpl; [discriminate|].
    intros [Hk [Hxa Ho]] Hh.
    apply orb_true_iff in Hh. destruct Hh as [Hh|Hh]; [|auto].
    apply orb_true_iff in Hh. destruct Hh as [Hh|Hh]; [|auto].
    apply String.eqb_eq in Hh. now subst. }
  induction o as [|[k0 x] o IH]; simpl; [discriminate|].
  intros [Hk [Hxa Ho]] Hh.
  apply orb_true_iff in Hh. destruct Hh as [Hh|Hh]; [|auto].
  apply orb_true_iff in Hh. destruct Hh as [Hh|Hh]; [|eauto].
  apply String.eqb_eq in Hh. now subst.
Qed.

Lemma props_all_leaf s : forall o,
  props_all K L o -> 0 < leaf_count_in s o -> L s.
Proof.
  assert (H : forall v, tree_all K L v -> 0 < leaf_count s v -> L s).
  { induction v as [s'|o IH|m] using tree_ind; [| |simpl; lia].
    - simpl. intros Hl. destruct (s' =? s) eqn:E; [intros _|intros Hc; lia].
      apply String.eqb_eq in E. now subst.
    - rewrite tree_all_obj, leaf_count_obj.
      induction IH as [|[k0 x] o Hx _ IHo]; simpl; [lia|].
      intros [Hk [Hxa Ho]] Hh. simpl in Hx.
      destruct (leaf_count s x) eqn:E; [apply IHo; auto; lia|].
      apply Hx; [exact Hxa|lia]. }
  induction o as [|[k0 x] o IH]; simpl; [lia|].
  intros [Hk [Hxa Ho]] Hh.
  destruct (leaf_count s x) eqn:E; [apply IH; auto; lia|].
  apply (H x); [exact Hxa|lia].
Qed.

Lemma props_all_get_key k x : forall o,
  props_all K L o -> Obj.get k o = Some x -> K k.
Proof.
  induction o as [|[k0 v0] o IH]; simpl; intros Hd Hg; [discriminate|].
  destruct (k0 =? k) eqn:E; [|apply IH; tauto].
  apply String.eqb_eq in E. subst. tauto.
Qed.

End TreeAll.

(** ** Colon-path grouping *)

Module InformerFacts.
Import Dom Informer.

Lemma mergeObjects_nil obj1 : mergeObjects obj1 [] = obj1.
Proof. reflexivity. Qed.

Lemma read_own k o v : Obj.get k o = Some v -> read k o = Some v.
Proof. unfold read. now intros ->. Qed.

Lemma read_ordinary k o : inherited k = false -> read k o = Obj.get k o.
Proof. unfold read. intros ->. now destruct (Obj.get k o). Qed.

(** An inherited member is a function: [mergeObjects] treats it as it
    treats a key that is not there. *)
Lemma merged_read k o x2 : merged (read k o) x2 = merged (Obj.get k o) x2.
Proof.
  unfold read. destruct (Obj.get k o) as [v|]; [reflexivity|].
  now destruct (inherited k).
Qed.

Lemma mergeObjects_cons obj1 key x2 obj2 :
  mergeObjects obj1 ((key, x2) :: obj2) =
  mergeObjects (Obj.set key (merged (Obj.get key obj1) x2) obj1) obj2.
Proof.
  rewrite <- merged_read. unfold mergeObjects, merged.
  cbn [mergeInto].
  destruct (read key obj1) as [[s|x1|m]|]; try reflexivity.
  destruct x2 as [s2|y2|m2]; try reflexivity.
  - now rewrite andb_false_r.
  - now rewrite andb_false_r.
Qed.

Lemma get_mergeObjects obj2 : forall obj1 key,
  NoDup (Obj.keys obj2) ->
  Obj.get key (mergeObjects obj1 obj2) =
  match Obj.get key obj2 with
  | Some x2 => Some (merged (Obj.get key obj1) x2)
  | None => Obj.get key obj1
  end.
Proof.
  induction obj2 as [|[k x2] obj2 IH]; intros obj1 key Hnd.
  - reflexivity.
  - rewrite mergeObjects_cons. simpl in Hnd. inversion Hnd as [|? ? Hk Hnd']; subst.
    rewrite IH by assumption. simpl.
    destruct (k =? key) eqn:E.
    + apply String.eqb_eq in E. subst key.
      rewrite (get_not_in _ _ _ Hk). apply get_set_same.
    + apply String.eqb_neq in E.
      rewrite get_set_other by congruence. reflexivity.
Qed.


Lemma mergeObjects_single obj1 key x2 :
  mergeObjects obj1 [(key, x2)] =
  Obj.set key (merged (Obj.get key obj1) x2) obj1.
Proof. now rewrite mergeObjects_cons, mergeObjects_nil. Qed.



Lemma buildNestedObject_single keys' : forall key0 end_val,
  exists x, buildNestedObject key0 keys' end_val = [(key0, x)].
Proof.
  destruct keys' as [|key1 keys']; intros key0 end_val; cbn [buildNestedObject].
  - destruct (inherited key0); [destruct (constructor_is_Object end_val)|];
      rewrite set_nil; eauto.
  - rewrite set_nil. eauto.
Qed.



Lemma truthy_attr_or_null x :
  truthy_attr (or_null x) = match present x with Some _ => true | None => false end.
Proof.
  destruct x as [s|]; simpl; auto. now destruct (s =? EmptyString).
Qed.

Lemma to_key_or_null x k : present x = Some k -> to_key (or_null x) = k.
Proof.
  destruct x as [s|]; simpl; [|discriminate].
  destruct (s =? EmptyString); congruence.
Qed.

Lemma truthy_attr_or_false x :
  truthy_attr (or_false x) = match present x with Some _ => true | None => false end.
Proof.
  destruct x as [s|]; simpl; auto. destruct (s =? EmptyString) eqn:E; simpl; auto.
  now rewrite E.
Qed.

(** *** Leaves and records *)

Lemma mergeInto_leaves s v2 : forall obj1,
  leaf_count_in s (mergeInto obj1 v2) <= leaf_count_in s obj1 + leaf_count s v2.
Proof.
  induction v2 as [s2|obj2 IH|m] using tree_ind; intros obj1.
  - simpl. lia.
  - change (mergeInto obj1 (VObj obj2)) with (mergeObjects obj1 obj2).
    rewrite leaf_count_obj. revert obj1.
    induction IH as [|[k x2] obj2 Hx _ IHobj2]; intros obj1.
    + rewrite mergeObjects_nil. simpl. lia.
    + rewrite mergeObjects_cons. simpl in Hx.
      specialize (IHobj2 (Obj.set k (merged (Obj.get k obj1) x2) obj1)).
      pose proof (leaf_count_set s k (merged (Obj.get k obj1) x2) obj1) as Hset.
      simpl.
      assert (Hm : leaf_count_in s (Obj.set k (merged (Obj.get k obj1) x2) obj1)
                   <= leaf_count_in s obj1 + leaf_count s x2).
      { unfold merged in *.
        destruct (Obj.get k obj1) as [[s1|x1|m1]|]; try lia.
        destruct x2 as [s2|y2|m2]; try lia.
        destruct (_ && _)%bool; [|lia].
        specialize (Hx x1).
        change (mergeInto x1 (VObj y2)) with (mergeObjects x1 y2) in Hx.
        rewrite !leaf_count_obj in *. lia. }
      lia.
  - simpl. lia.
Qed.

Lemma buildNestedObject_leaves s keys' : forall key0 end_val,
  leaf_count_in s (buildNestedObject key0 keys' end_val) <= leaf_count s end_val.
Proof.
  induction keys' as [|key1 keys' IH]; intros key0 end_val; cbn [buildNestedObject].
  - destruct (inherited key0); [destruct (constructor_is_Object end_val)|];
      rewrite set_nil; simpl; lia.
  - rewrite set_nil. cbn [leaf_count_in]. rewrite leaf_count_obj.
    specialize (IH key1 end_val). lia.
Qed.

Lemma groupValues_step_leaves s vals_struct r :
  leaf_count_in s (groupValues_step vals_struct r) <=
  leaf_count_in s vals_struct + (if value r =? s then 1 else 0).
Proof.
  unfold groupValues_step. destruct (truthy_attr (group r)).
  - rewrite set_nil.
    destruct (split ":"%char (to_key (group r))) as [key0 keys'].
    pose proof (mergeInto_leaves s
                  (VObj (buildNestedObject key0 keys'
                           (VObj [(to_key (name r), VStr (value r))])))
                  vals_struct) as H.
    change (mergeInto vals_struct (VObj ?o)) with (mergeObjects vals_struct o) in H.
    rewrite leaf_count_obj in H.
    pose proof (buildNestedObject_leaves s keys' key0
                  (VObj [(to_key (name r), VStr (value r))])) as H'.
    simpl in H'. lia.
  - pose proof (leaf_count_set s (to_key (name r)) (VStr (value r)) vals_struct) as H.
    simpl in H. lia.
Qed.

(** In a tree that [groupValues] returns there are at most as many leaves
    holding a string as there are records with that value: every leaf comes
    from a record, and no record gives two leaves. *)
Lemma groupValues_leaves s val_objs :
  leaf_count_in s (groupValues val_objs) <=
  List.length (filter (fun r => value r =? s) val_objs).
Proof.
  unfold groupValues.
  assert (H : forall acc,
             leaf_count_in s (fold_left groupValues_step val_objs acc) <=
             leaf_count_in s acc +
             List.length (filter (fun r => value r =? s) val_objs)).
  { induction val_objs as [|r val_objs IH]; intros acc; simpl; [lia|].
    specialize (IH (groupValues_step acc r)).
    pose proof (groupValues_step_leaves s acc r) as Hs.
    destruct (value r =? s); simpl; lia. }
  apply (H []).
Qed.




(** C3, as amended.  After [mergeObjects(obj1, obj2)], a key that [obj2]
    does not have keeps what [obj1] had; a key under which both objects
    hold an object whose [constructor] is [Object] holds the recursive
    merge of the two; under every other key of [obj2] (one side a leaf or
    a function, an object that has a [constructor] key of its own, or the
    key missing from [obj1]) the incoming value stands in place of whatever
    was there.  [obj2] is an object that [mergeObjects] can walk: none of
    its objects has a key [hasOwnProperty]. *)
Theorem deep_merge_semantics : forall obj1 obj2 key,
  NoDup (Obj.keys obj2) ->
  has_key_in "hasOwnProperty" obj2 = false ->
  match Obj.get key obj2, Obj.get key obj1 with
  | None, old => Obj.get key (mergeObjects obj1 obj2) = old
  | Some (VObj y2), Some (VObj x1) =>
      Obj.get key (mergeObjects obj1 obj2) =
      Some (if (constructor_is_Object (VObj x1) &&
                constructor_is_Object (VObj y2))%bool
            then VObj (mergeObjects x1 y2) else VObj y2)
  | Some incoming, _ =>
      Obj.get key (mergeObjects obj1 obj2) = Some incoming
  end.
Proof.
  intros obj1 obj2 key Hnd _. rewrite (get_mergeObjects obj2 obj1 key Hnd).
  unfold merged.
  destruct (Obj.get key obj2) as [[s2|y2|m2]|];
    destruct (Obj.get key obj1) as [[s1|x1|m1]|]; reflexivity.
Qed.

Lemma deep_merge_semantics_witness :
  Obj.get "a"
    (mergeObjects [("a", VObj [("b", VStr "1")]); ("k", VStr "old")]
                  [("a", VObj [("c", VStr "2")]); ("k", VObj [])]) =
  Some (VObj (mergeObjects [("b", VStr "1")] [("c", VStr "2")])).
Proof.
  apply (deep_merge_semantics
           [("a", VObj [("b", VStr "1")]); ("k", VStr "old")]
           [("a", VObj [("c", VStr "2")]); ("k", VObj [])] "a").
  - simpl. repeat constructor; simpl; intuition discriminate.
  - reflexivity.
Defined.

(** C3 as stated fails: both sides hold a structure under [a], but the
    existing one has a key [constructor] of its own, so that its
    [constructor] is not [Object]: the incoming structure replaces it and
    the value it held is lost. *)
Lemma structures_replaced_not_merged :
  mergeObjects [("a", VObj [("constructor", VStr "v1")])]
               [("a", VObj [("x", VStr "v2")])] =
  [("a", VObj [("x", VStr "v2")])] /\
  leaf_count_in "v1"
    (mergeObjects [("a", VObj [("constructor", VStr "v1")])]
                  [("a", VObj [("x", VStr "v2")])]) = 0.
Proof. split; reflexivity. Qed.

(** C4. Wrapping.  [toObject] puts the value it built under the form's name
    when the form has one, else under its id, else under the configured
    [unnamed_form_key]; when the form has neither and that key is [null],
    [false] (or empty), the value is returned as it is.  The value is the
    gathered tree, handed to [transform] first when that is a function. *)
Theorem toObject_wrapping : forall c form transform,
  let T := match transform with
           | Some f => f (gatherTheValues form)
           | None => VObj (gatherTheValues form)
           end in
  toObject c form transform =
  match present (formAttribute "name" form),
        present (formAttribute "id" form) with
  | Some name, _ => VObj [(name, T)]
  | None, Some id => VObj [(id, T)]
  | None, None =>
      match unnamed_form_key c with
      | AStr key => if key =? EmptyString then T else VObj [(key, T)]
      | ANull | AFalse => T
      end
  end.
Proof.
  intros c form transform T. unfold toObject, js_or. fold T.
  destruct (formAttribute "name" form) as [n|];
    [destruct (n =? EmptyString) eqn:En|];
    (destruct (formAttribute "id" form) as [i|];
     [destruct (i =? EmptyString) eqn:Ei|]);
    (destruct (unnamed_form_key c) as [| |k];
     [| |destruct (k =? EmptyString) eqn:Ek]);
    cbn [present or_null truthy_attr to_key negb];
    rewrite ?En, ?Ei, ?Ek; cbn [negb truthy_attr to_key];
    rewrite ?En, ?Ei, ?Ek; cbn [negb truthy_attr to_key];
    rewrite ?En, ?Ei, ?Ek; cbn [negb]; rewrite ?set_nil; reflexivity.
Qed.








(** C8 at a form with two inputs, the second one carrying [disabled]:
    [clearFormValues] leaves the value of the first input, which it should
    clear, and empties the second one, which it should keep: the assignment
    goes to [elems[1]] whatever [i] is. *)
Theorem clear_writes_second_element :
  clearFormValues plain_conf two_input_form =
  ({| form_attributes := form_attributes two_input_form;
      descendants := [email_input; with_value EmptyString disabled_input] |},
   Normal)
  /\ hasAttribute "disabled" email_input = false
  /\ hasAttribute "disabled" disabled_input = true
  /\ Dom.value email_input <> EmptyString
  /\ Dom.value disabled_input <> EmptyString.
Proof. repeat split; discriminate. Qed.

End InformerFacts.

(** ** The configuration store *)

Module ConfigFacts.
Import Config.

Lemma get_sieve (V : Type) (model partial : Obj.t V) k :
  Obj.get k (sieve model partial) =
  match Obj.get k model with
  | Some v => Some match Obj.get k partial with Some v' => v' | None => v end
  | None => None
  end.
Proof.
  induction model as [|[k0 v0] model IH]; simpl; auto.
  destruct (k0 =? k) eqn:E; auto.
  apply String.eqb_eq in E. now subst k0.
Qed.

Lemma keys_sieve (V : Type) (model partial : Obj.t V) :
  Obj.keys (sieve model partial) = Obj.keys model.
Proof.
  unfold sieve, Obj.keys. rewrite map_map. reflexivity.
Qed.

(** C6. Configuration round trip.  [setConf(partial)] answers with the new
    active configuration: it has the keys of the previous one, each bound to
    the value [partial] gives it or else to its previous value, so keys that
    only [partial] has are dropped; the previous configuration becomes the
    backup.  [resetConf()] then brings back the previous configuration,
    every option with the value it had, and a second [resetConf()] changes
    nothing and answers with the current configuration. *)
Theorem config_round_trip : forall (V : Type) (st : store V) (partial : Obj.t V),
  let set := makeNewConf partial st in
  let reset := resetConfToDefault (fst set) in
  let again := resetConfToDefault (fst reset) in
  snd set = conf (fst set) /\
  Obj.keys (conf (fst set)) = Obj.keys (conf st) /\
  (forall k v, Obj.get k (conf st) = Some v ->
     Obj.get k (conf (fst set)) =
     Some match Obj.get k partial with Some v' => v' | None => v end) /\
  (forall k, Obj.get k (conf st) = None -> Obj.get k (conf (fst set)) = None) /\
  conf_bk (fst set) = Some (conf st) /\
  conf (fst reset) = conf st /\
  snd reset = conf st /\
  fst again = fst reset /\
  snd again = conf (fst reset).
Proof.
  intros V st partial. simpl. repeat split.
  - apply keys_sieve.
  - intros k v H. now rewrite get_sieve, H.
  - intros k H. now rewrite get_sieve, H.
Qed.

End ConfigFacts.

(** ** Group / pargroup gathering *)

Module InformerClassFacts.
Import Dom InformerClass.

Lemma scanValue_obj e vals :
  scanValue e (VObj vals) =
  match scanProps e vals with
  | Ok (vals', added) => Ok (VObj vals', added)
  | TypeError => TypeError
  end.
Proof.
  unfold scanProps, scanKeys. cbn [scanValue].
  now destruct (hasOwnProperty_callable vals).
Qed.

Lemma scanKeys_cons e key x props :
  scanKeys e ((key, x) :: props) =
  if key =? to_key (pargroup e) then
    match insertUnder e x with
    | Ok x' => Ok ((key, x') :: props, true)
    | TypeError => TypeError
    end
  else
    match x with
    | VObj _ =>
        match scanValue e x with
        | Ok (x', added) =>
            match scanKeys e props with
            | Ok (props'', added') =>
                Ok ((key, x') :: props'', (added || added')%bool)
            | TypeError => TypeError
            end
        | TypeError => TypeError
        end
    | _ =>
        match scanKeys e props with
        | Ok (props'', added') => Ok ((key, x) :: props'', added')
        | TypeError => TypeError
        end
    end.
Proof. reflexivity. Qed.

Lemma scanProps_ok e vals r :
  scanProps e vals = Ok r ->
  hasOwnProperty_callable vals = true /\ scanKeys e vals = Ok r.
Proof.
  unfold scanProps. destruct (hasOwnProperty_callable vals); [auto|discriminate].
Qed.

Lemma scanKeys_result e props :
  Forall (fun kv => scan_result e (snd kv) (scanValue e (snd kv))) props ->
  match scanKeys e props with
  | Ok (props', added) =>
      added = has_key_in (to_key (pargroup e)) props /\
      (added = false -> props' = props)
  | TypeError => True
  end.
Proof.
  induction 1 as [|[key x] props Hx _ IH].
  - simpl. auto.
  - rewrite scanKeys_cons. change (has_key_in ?k ((key, x) :: props))
      with ((key =? k) || has_key_deep k x || has_key_in k props)%bool.
    destruct (key =? to_key (pargroup e)) eqn:E; simpl.
    + destruct (insertUnder e x); auto. split; [reflexivity|discriminate].
    + simpl in Hx. destruct x as [s|o|m].
      * simpl. destruct (scanKeys e props) as [[props'' added']|]; auto.
        destruct IH as [-> IH]. split; [reflexivity|].
        intros H. now rewrite (IH H).
      * unfold scan_result in Hx.
        destruct (scanValue e (VObj o)) as [[x' added]|]; [|exact I].
        destruct Hx as [-> Hx].
        destruct (scanKeys e props) as [[props'' added']|]; [|exact I].
        destruct IH as [-> IH]. split; [reflexivity|].
        intros H. apply orb_false_iff in H. destruct H as [H1 H2].
        now rewrite (Hx H1), (IH H2).
      * simpl. destruct (scanKeys e props) as [[props'' added']|]; auto.
        destruct IH as [-> IH]. split; [reflexivity|].
        intros H. now rewrite (IH H).
Qed.

Lemma scanValue_result e v : scan_result e v (scanValue e v).
Proof.
  induction v as [s|o IH|m] using tree_ind.
  - simpl. auto.
  - unfold scan_result. rewrite scanValue_obj, has_key_deep_obj.
    pose proof (scanKeys_result e _ IH) as H. unfold scanProps.
    destruct (hasOwnProperty_callable o); [|exact I].
    destruct (scanKeys e o) as [[props' added]|]; auto.
    destruct H as [-> H]. split; [reflexivity|].
    intros Hf. now rewrite (H Hf).
  - simpl. auto.
Qed.

Lemma scanKeys_spec e props :
  match scanKeys e props with
  | Ok (props', added) =>
      added = has_key_in (to_key (pargroup e)) props /\
      (added = false -> props' = props)
  | TypeError => True
  end.
Proof.
  apply scanKeys_result. apply Forall_forall. intros kv _.
  apply scanValue_result.
Qed.

Lemma scanProps_spec e props :
  match scanProps e props with
  | Ok (props', added) =>
      added = has_key_in (to_key (pargroup e)) props /\
      (added = false -> props' = props)
  | TypeError => True
  end.
Proof.
  unfold scanProps. destruct (hasOwnProperty_callable props); [|exact I].
  apply scanKeys_spec.
Qed.

Lemma truthy_read_set g v vals :
  truthy (read g (Obj.set g (VObj v) vals)) = true.
Proof. unfold read. now rewrite get_set_same. Qed.

Lemma assignIn_ensureObject g n v vals :
  exists vals', assignIn g n v (ensureObject g vals) = Ok vals'.
Proof.
  unfold assignIn, ensureObject.
  destruct (truthy (read g vals)) eqn:T.
  - destruct (read g vals) as [[s|o|m]|]; eauto. discriminate.
  - unfold read at 1. rewrite get_set_same. eauto.
Qed.

(** An element without a pargroup is always added. *)
Lemma addElementToValues_base e vals :
  truthy_attr (pargroup e) = false ->
  exists vals', addElementToValues e vals = Ok (vals', true).
Proof.
  intros H. unfold addElementToValues. rewrite H.
  destruct (truthy_attr (group e)); [|eauto].
  destruct (assignIn_ensureObject (to_key (group e)) (to_key (name e)) (val e) vals)
    as [vals' ->]. eauto.
Qed.

Lemma addElementToValues_not_added e vals vals' :
  addElementToValues e vals = Ok (vals', false) ->
  vals' = vals /\ truthy_attr (pargroup e) = true /\
  has_key_in (to_key (pargroup e)) vals = false.
Proof.
  intros H. destruct (truthy_attr (pargroup e)) eqn:P.
  - unfold addElementToValues in H. rewrite P in H.
    pose proof (scanProps_spec e vals) as S. rewrite H in S.
    destruct S as [S1 S2]. auto.
  - destruct (addElementToValues_base e vals P) as [v' Hv]. congruence.
Qed.

(** *** One pass *)

Lemma pass_entries b : forall elements values elements' values' recur,
  pass b elements values = Ok (elements', values', recur) ->
  Forall2 kept_or_deleted elements elements'.
Proof.
  induction elements as [|[e|] elements IH]; simpl; intros values elements' values' recur H.
  - injection H as <- _ _. constructor.
  - destruct (negb (truthy_attr (pargroup e)) || b)%bool.
    + destruct (addElementToValues e values) as [[v1 added]|]; [|discriminate].
      destruct (pass b elements v1) as [[[rest v2] r]|] eqn:Hp; [|discriminate].
      injection H as <- _ _. constructor; [|eauto].
      destruct added; [right|left]; reflexivity.
    + destruct (pass b elements values) as [[[rest v2] r]|] eqn:Hp; [|discriminate].
      injection H as <- _ _. constructor; [now left|eauto].
  - destruct (pass b elements values) as [[[rest v2] r]|] eqn:Hp; [|discriminate].
    injection H as <- _ _. constructor; [now left|eauto].
Qed.

(** A pass that sets [recur] deletes an entry; a pass that does not leaves
    the array and the values as they were. *)
Lemma pass_progress b : forall elements values elements' values' recur,
  pass b elements values = Ok (elements', values', recur) ->
  alive elements' <= alive elements /\
  (recur = true -> alive elements' < alive elements) /\
  (recur = false -> elements' = elements /\ values' = values).
Proof.
  unfold alive.
  induction elements as [|[e|] elements IH]; simpl; intros values elements' values' recur H.
  - injection H as <- <- <-. simpl. split; [lia|]. split; [discriminate|auto].
  - destruct (negb (truthy_attr (pargroup e)) || b)%bool.
    + destruct (addElementToValues e values) as [[v1 added]|] eqn:Ha; [|discriminate].
      destruct (pass b elements v1) as [[[rest v2] r]|] eqn:Hp; [|discriminate].
      injection H as <- <- <-. destruct (IH _ _ _ _ Hp) as [I1 [I2 I3]].
      destruct added; simpl.
      * split; [lia|]. split; [intros _; lia|discriminate].
      * split; [lia|]. split.
        -- intros Hr. specialize (I2 Hr). lia.
        -- intros Hr. destruct (I3 Hr) as [-> ->].
           now destruct (addElementToValues_not_added _ _ _ Ha) as [-> _].
    + destruct (pass b elements values) as [[[rest v2] r]|] eqn:Hp; [|discriminate].
      injection H as <- <- <-. destruct (IH _ _ _ _ Hp) as [I1 [I2 I3]].
      simpl. split; [lia|]. split.
      * intros Hr. specialize (I2 Hr). lia.
      * intros Hr. now destruct (I3 Hr) as [-> ->].
  - destruct (pass b elements values) as [[[rest v2] r]|] eqn:Hp; [|discriminate].
    injection H as <- <- <-. destruct (IH _ _ _ _ Hp) as [I1 [I2 I3]].
    simpl. split; [lia|]. split; [auto|].
    intros Hr. now destruct (I3 Hr) as [-> ->].
Qed.


(** *** The loop *)

Lemma loopOnElements_terminates : forall fuel b elements values,
  alive elements < fuel ->
  exists r, loopOnElements fuel b elements values = Some r.
Proof.
  induction fuel as [|fuel IH]; intros b elements values Hf; [lia|].
  simpl. destruct (pass b elements values) as [[[elements' values'] recur]|] eqn:Hp.
  - destruct recur.
    + destruct (pass_progress _ _ _ _ _ _ Hp) as [_ [Hlt _]]. specialize (Hlt eq_refl).
      destruct (IH true elements' values') as [r ->]; [lia|].
      destruct r as [[[e2 v2] n]|]; eauto.
    + eauto.
  - eauto.
Qed.

(** Every call of [loopOnElements] but the last one deletes an entry. *)
Lemma loopOnElements_passes : forall fuel b elements values left values' n,
  loopOnElements fuel b elements values = Some (Ok (left, values', n)) ->
  1 <= n /\ (n - 1) + alive left <= alive elements.
Proof.
  induction fuel as [|fuel IH]; intros b elements values left values' n H;
    [discriminate|].
  simpl in H.
  destruct (pass b elements values) as [[[elements1 values1] recur]|] eqn:Hp;
    [|discriminate].
  destruct (pass_progress _ _ _ _ _ _ Hp) as [Hle [Hlt Heq]].
  destruct recur.
  - destruct (loopOnElements fuel true elements1 values1)
      as [[[[e2 v2] n2]|]|] eqn:Hl; try discriminate.
    injection H as <- <- <-. destruct (IH _ _ _ _ _ _ Hl) as [H1 H2].
    specialize (Hlt eq_refl). lia.
  - injection H as <- <- <-. lia.
Qed.




(** *** Leaving out the entries that are never deleted *)






Lemma alive_map_Some elements : alive (map Some elements) = List.length elements.
Proof. unfold alive. induction elements; simpl; auto. Qed.


(** *** The whole gathering *)

(** An element is added exactly when it has no pargroup or its pargroup is,
    at that moment, a key somewhere in the values. *)
Lemma addElementToValues_added e vals vals' added :
  addElementToValues e vals = Ok (vals', added) ->
  added = (negb (truthy_attr (pargroup e)) ||
           has_key_in (to_key (pargroup e)) vals)%bool.
Proof.
  intros H. destruct (truthy_attr (pargroup e)) eqn:P; simpl.
  - unfold addElementToValues in H. rewrite P in H.
    pose proof (scanProps_spec e vals) as S. rewrite H in S. tauto.
  - destruct (addElementToValues_base e vals P) as [v' Hv]. congruence.
Qed.

Lemma gatherElements_loop elements g :
  gatherElements elements = Some (Ok g) ->
  loopOnElements (S (List.length elements)) false (map Some elements) [] =
  Some (Ok (left g, values g, passes g)) /\
  orphans g = remaining (left g) /\
  console g = displayErrors (left g).
Proof.
  unfold gatherElements. intros H.
  destruct (loopOnElements (S (List.length elements)) false (map Some elements) [])
    as [[[[l v] n]|]|]; try discriminate.
  injection H as <-. simpl. auto.
Qed.

Lemma remaining_kept : forall elements elements',
  Forall2 kept_or_deleted elements elements' ->
  forall e, In e (remaining elements') -> In e (remaining elements).
Proof.
  induction 1 as [|x x' l l' Hx _ IH]; intros e Hin; [exact Hin|].
  destruct Hx as [-> | ->]; simpl in *.
  - destruct x; simpl in *; [destruct Hin; auto|auto].
  - destruct x; simpl; auto.
Qed.



(** *** Values that are kept *)



Section Inclusion.
Import Provenance.
Variables S O : string -> Prop.
Hypothesis apart : forall k, S k -> O k -> False.
Variables n s : string.

(** What every element is to satisfy: its name is a name, its group a group,
    and it has the value [s] if it has the name [n]. *)
Let fits (e : elem) : Prop :=
  S (to_key (name e)) /\
  (uses_group e = true -> O (to_key (group e))) /\
  (to_key (name e) = n -> val e = s).

(** The element whose value is followed *)
Let tracked (e : elem) : Prop :=
  to_key (name e) = n /\ val e = s /\
  (uses_group e = true -> inherited (to_key (group e)) = false) /\
  (truthy_attr (pargroup e) = true -> ~ S (to_key (pargroup e))).

Lemma kinds_obj o : kinds_all S O (VObj o) <-> kinds_in S O o.
Proof.
  induction o as [|[k x] o IH]; simpl in *; [tauto|]. rewrite IH. tauto.
Qed.

Lemma named_obj o :
  named_leaf_count n s (VObj o) = named_leaf_count_in n s o.
Proof.
  induction o as [|[k x] o IH]; [reflexivity|]. simpl in *. now rewrite IH.
Qed.

Lemma kinds_get k x : forall o,
  kinds_in S O o -> Obj.get k o = Some x ->
  kind_ok S O k x /\ kinds_all S O x.
Proof.
  induction o as [|[k0 v0] o IH]; simpl; intros Hd Hg; [discriminate|].
  destruct (k0 =? k) eqn:E; [|apply IH; tauto].
  apply String.eqb_eq in E. subst. injection Hg as <-. tauto.
Qed.

Lemma kinds_set k x o :
  kinds_in S O o -> kind_ok S O k x -> kinds_all S O x ->
  kinds_in S O (Obj.set k x o).
Proof.
  intros Ho Hk Hx. unfold Obj.set. destruct (Obj.get k o).
  - induction o as [|[k0 v0] o IH]; simpl in *; auto.
    destruct (k0 =? k) eqn:E; simpl; [|tauto].
    apply String.eqb_eq in E. subst. tauto.
  - destruct (Obj.array_index k) as [i|].
    + induction o as [|[k0 v0] o IH]; simpl in *; auto.
      destruct (Obj.array_index k0) as [j|]; simpl; [|tauto].
      destruct (j <? i)%N; simpl; tauto.
    + induction o as [|[k0 v0] o IH]; simpl in *; tauto.
Qed.

Lemma named_set k x o :
  named_leaf_count_in n s (Obj.set k x o) +
  match Obj.get k o with
  | Some old => own_leaf n s k old + named_leaf_count n s old
  | None => 0
  end =
  named_leaf_count_in n s o + (own_leaf n s k x + named_leaf_count n s x).
Proof.
  unfold Obj.set. destruct (Obj.get k o) as [old|] eqn:G.
  - revert G. induction o as [|[k0 v0] o IH]; simpl; intros G; [discriminate|].
    destruct (k0 =? k) eqn:E; simpl.
    + apply String.eqb_eq in E. subst k0. injection G as ->. lia.
    + specialize (IH G). lia.
  - destruct (Obj.array_index k) as [i|].
    + clear G. induction o as [|[k0 v0] o IH]; simpl; [lia|].
      destruct (Obj.array_index k0) as [j|]; simpl; [|lia].
      destruct (j <? i)%N; simpl; lia.
    + clear G. induction o as [|[k0 v0] o IH]; simpl; lia.
Qed.

Lemma named_get k x : forall o,
  Obj.get k o = Some x ->
  own_leaf n s k x + named_leaf_count n s x <= named_leaf_count_in n s o.
Proof.
  induction o as [|[k0 v0] o IH]; simpl; intros G; [discriminate|].
  destruct (k0 =? k) eqn:E.
  - apply String.eqb_eq in E. subst k0. injection G as ->. lia.
  - specialize (IH G). lia.
Qed.

(** Writing a leaf under a name *)
Lemma write_leaf k v m :
  kinds_in S O m -> S k -> (k = n -> v = s) ->
  kinds_in S O (Obj.set k (VStr v) m) /\
  named_leaf_count_in n s m <= named_leaf_count_in n s (Obj.set k (VStr v) m) /\
  (k = n -> 1 <= named_leaf_count_in n s (Obj.set k (VStr v) m)).
Proof.
  intros Hm Hk Hv. split; [apply kinds_set; simpl; auto|].
  pose proof (named_set k (VStr v) m) as H.
  assert (Hown : k = n -> own_leaf n s k (VStr v) = 1).
  { intros E. unfold own_leaf. rewrite (Hv E), E, !String.eqb_refl.
    reflexivity. }
  cbn [named_leaf_count] in H.
  destruct (Obj.get k m) as [old|] eqn:G.
  - destruct (kinds_get _ _ _ Hm G) as [Hok _].
    destruct old as [s0|o0|m0]; simpl in Hok.
    + assert (Hle : own_leaf n s k (VStr s0) <= own_leaf n s k (VStr v)).
      { unfold own_leaf. destruct (k =? n) eqn:E; simpl; [|lia].
        apply String.eqb_eq in E. rewrite (Hv E), String.eqb_refl.
        destruct (s0 =? s); lia. }
      pose proof (named_get _ _ _ G) as Hg.
      cbn [named_leaf_count] in H, Hg. split; [lia|].
      intros E. specialize (Hown E). lia.
    + exfalso. exact (apart k Hk Hok).
    + contradiction.
  - split; [lia|]. intros E. specialize (Hown E). lia.
Qed.

(** Writing a value under a group and a name *)
Lemma written e vals vals' :
  kinds_in S O vals -> fits e -> uses_group e = true ->
  assignIn (to_key (group e)) (to_key (name e)) (val e)
           (ensureObject (to_key (group e)) vals) = Ok vals' ->
  kinds_in S O vals' /\
  named_leaf_count_in n s vals <= named_leaf_count_in n s vals' /\
  (tracked e -> 1 <= named_leaf_count_in n s vals').
Proof.
  intros Hv [Hn [Hg Hs]] Hu. specialize (Hg Hu).
  unfold assignIn, ensureObject, read.
  destruct (Obj.get (to_key (group e)) vals) as [[s0|m|f]|] eqn:G.
  - exfalso. destruct (kinds_get _ _ _ Hv G) as [Hok _]. simpl in Hok.
    exact (apart _ Hok Hg).
  - cbn [truthy]. rewrite G. intros [= <-].
    destruct (kinds_get _ _ _ Hv G) as [_ Hm]. apply kinds_obj in Hm.
    destruct (write_leaf (to_key (name e)) (val e) m Hm Hn Hs) as [W1 [W2 W3]].
    pose proof (named_set (to_key (group e))
                  (VObj (Obj.set (to_key (name e)) (VStr (val e)) m)) vals) as H.
    rewrite G in H. cbn [own_leaf] in H. rewrite !named_obj in H.
    pose proof (named_get _ _ _ G) as Hold. cbn [own_leaf] in Hold.
    rewrite named_obj in Hold.
    split; [|split].
    + apply kinds_set; [exact Hv|exact Hg|]. now apply kinds_obj.
    + lia.
    + intros [T1 _]. specialize (W3 T1). lia.
  - exfalso. destruct (kinds_get _ _ _ Hv G) as [Hok _]. exact Hok.
  - destruct (inherited (to_key (group e))) eqn:Ih.
    + cbn [truthy]. rewrite G. intros [= <-].
      split; [exact Hv|]. split; [lia|].
      intros [_ [_ [T3 _]]]. specialize (T3 Hu). congruence.
    + cbn [truthy]. rewrite get_set_same. intros [= <-]. rewrite set_set.
      destruct (write_leaf (to_key (name e)) (val e) [] Logic.I Hn Hs)
        as [W1 [W2 W3]].
      pose proof (named_set (to_key (group e))
                    (VObj (Obj.set (to_key (name e)) (VStr (val e)) [])) vals)
        as H.
      rewrite G in H. cbn [own_leaf] in H. rewrite !named_obj in H.
      split; [|split].
      * apply kinds_set; [exact Hv|exact Hg|]. now apply kinds_obj.
      * lia.
      * intros [T1 _]. specialize (W3 T1). lia.
Qed.

Lemma uses_group_pargroup e :
  truthy_attr (pargroup e) = true -> uses_group e = true.
Proof. unfold uses_group. intros ->. apply orb_true_r. Qed.

(** The write under a pargroup that was found *)
Lemma inserted e parent parent' :
  kinds_all S O parent -> fits e -> truthy_attr (pargroup e) = true ->
  insertUnder e parent = Ok parent' ->
  kinds_all S O parent' /\
  (forall k, kind_ok S O k parent -> kind_ok S O k parent') /\
  (forall k, own_leaf n s k parent + named_leaf_count n s parent <=
             own_leaf n s k parent' + named_leaf_count n s parent') /\
  (tracked e -> (exists members, parent = VObj members) ->
   1 <= named_leaf_count n s parent').
Proof.
  intros Hp He Hpar. unfold insertUnder.
  destruct parent as [s0|members|m0].
  - destruct (str_has s0 (to_key (group e))); [|discriminate].
    intros [= <-]. split; [exact Hp|]. split; [auto|]. split; [intros k; lia|].
    intros _ [members Hm]. discriminate.
  - destruct (assignIn _ _ _ _) as [m|] eqn:A; [|discriminate].
    intros [= <-]. apply kinds_obj in Hp.
    destruct (written e members m Hp He (uses_group_pargroup e Hpar) A)
      as [W1 [W2 W3]].
    split; [now apply kinds_obj|]. split; [auto|].
    rewrite !named_obj. split; [intros k; cbn [own_leaf]; lia|].
    intros Ht _. exact (W3 Ht).
  - intros [= <-]. split; [exact Hp|]. split; [auto|]. split; [intros k; lia|].
    intros _ [members Hm]. discriminate.
Qed.

Lemma scanned_keys e :
  fits e -> truthy_attr (pargroup e) = true ->
  forall o,
  Forall (fun kv =>
            forall v' a, kinds_all S O (snd kv) ->
              scanValue e (snd kv) = Ok (v', a) ->
              kinds_all S O v' /\
              named_leaf_count n s (snd kv) <= named_leaf_count n s v' /\
              (a = true -> tracked e -> 1 <= named_leaf_count n s v')) o ->
  forall o' a', kinds_in S O o -> scanKeys e o = Ok (o', a') ->
    kinds_in S O o' /\
    named_leaf_count_in n s o <= named_leaf_count_in n s o' /\
    (a' = true -> tracked e -> 1 <= named_leaf_count_in n s o').
Proof.
  intros He Hpar o IH.
  induction IH as [|[k x] o Hx _ IHo]; intros o' a' Hv Hs.
  - simpl in Hs. injection Hs as <- <-. split; [exact I|]. split; [lia|].
    discriminate.
  - rewrite scanKeys_cons in Hs. simpl in Hv, Hx.
    destruct Hv as [Hk [Hxa Ho]].
    destruct (k =? to_key (pargroup e)) eqn:E.
    + destruct (insertUnder e x) as [x'|] eqn:Hi; [|discriminate].
      injection Hs as <- <-.
      destruct (inserted e x x' Hxa He Hpar Hi) as [I1 [I2 [I3 I4]]].
      split; [simpl; auto|]. split; [specialize (I3 k); simpl; lia|].
      intros _ Ht.
      assert (Hm : exists members, x = VObj members).
      { destruct x as [s0|members|m0]; [| eauto |contradiction].
        exfalso. simpl in Hk. apply String.eqb_eq in E. subst k.
        destruct Ht as [_ [_ [_ T4]]]. exact (T4 Hpar Hk). }
      specialize (I4 Ht Hm). simpl. lia.
    + destruct x as [s0|xo|m0].
      * destruct (scanKeys e o) as [[o1 a1]|] eqn:S1; [|discriminate].
        injection Hs as <- <-.
        destruct (IHo o1 a1 Ho eq_refl) as [J1 [J2 J3]].
        split; [simpl; auto|]. split; [simpl; lia|].
        intros Ha Ht. specialize (J3 Ha Ht). simpl. lia.
      * destruct (scanValue e (VObj xo)) as [[x1 a1]|] eqn:S0;
          [|discriminate].
        destruct (scanKeys e o) as [[o1 a2]|] eqn:S1; [|discriminate].
        injection Hs as <- <-.
        destruct (Hx x1 a1 Hxa eq_refl) as [X1 [X2 X3]].
        destruct (IHo o1 a2 Ho eq_refl) as [J1 [J2 J3]].
        assert (Hx1 : exists o1', x1 = VObj o1').
        { rewrite scanValue_obj in S0.
          destruct (scanProps e xo) as [[o1' a1']|]; [|discriminate].
          injection S0 as <- _. eauto. }
        destruct Hx1 as [o1' ->].
        split; [simpl; auto|]. split; [simpl in *; lia|].
        intros Ha Ht. apply orb_true_iff in Ha. simpl.
        destruct Ha as [Ha|Ha]; [specialize (X3 Ha Ht)|specialize (J3 Ha Ht)];
          simpl in *; lia.
      * contradiction.
Qed.

Lemma scanned e :
  fits e -> truthy_attr (pargroup e) = true ->
  forall v v' a, kinds_all S O v -> scanValue e v = Ok (v', a) ->
    kinds_all S O v' /\
    named_leaf_count n s v <= named_leaf_count n s v' /\
    (a = true -> tracked e -> 1 <= named_leaf_count n s v').
Proof.
  intros He Hpar.
  induction v as [s0|o IH|m] using tree_ind; intros v' a Hv Hs.
  - simpl in Hs. injection Hs as <- <-. split; [exact Hv|]. split; [lia|].
    discriminate.
  - rewrite scanValue_obj in Hs.
    destruct (scanProps e o) as [[o' a']|] eqn:Sp; [|discriminate].
    apply scanProps_ok in Sp. destruct Sp as [_ Sp].
    injection Hs as <- <-. apply kinds_obj in Hv.
    destruct (scanned_keys e He Hpar o IH o' a' Hv Sp) as [K1 [K2 K3]].
    rewrite !named_obj. split; [now apply kinds_obj|]. auto.
  - simpl in Hs. injection Hs as <- <-. split; [exact Hv|]. split; [lia|].
    discriminate.
Qed.




End Inclusion.




(** C5, as amended.  The loop ends: with more fuel than there are entries it
    returns, and [gatherElements] always does.  A pass that adds nothing is
    the last one, and so is a pass over an array with no entry left.  Every
    call but the last has deleted an entry, so the number of calls is at most
    one more than the number of elements consumed. *)
Theorem fixpoint_loop_terminates : forall elements,
  (exists r, gatherElements elements = Some r) /\
  (forall fuel b array values,
     alive array < fuel ->
     exists r, loopOnElements fuel b array values = Some r) /\
  (forall fuel b array values array' values',
     pass b array values = Ok (array', values', false) ->
     loopOnElements (S fuel) b array values = Some (Ok (array', values', 1))) /\
  (forall fuel b array values,
     alive array = 0 ->
     loopOnElements (S fuel) b array values = Some (Ok (array, values, 1))) /\
  (forall g, gatherElements elements = Some (Ok g) ->
     1 <= passes g /\
     (passes g - 1) + List.length (orphans g) <= List.length elements /\
     passes g <= List.length elements + 1).
Proof.
  intros elements. split; [|split; [|split; [|split]]].
  - unfold gatherElements.
    destruct (loopOnElements_terminates (S (List.length elements)) false
                (map Some elements) []) as [r ->];
      [rewrite alive_map_Some; lia|].
    destruct r as [[[l v] n]|]; eauto.
  - apply loopOnElements_terminates.
  - intros fuel b array values array' values' H. simpl. now rewrite H.
  - intros fuel b array values H. simpl.
    assert (Hp : pass b array values = Ok (array, values, false)).
    { clear fuel. revert values. unfold alive in H.
      induction array as [|[e|] array IH]; intros values; simpl in *.
      - reflexivity.
      - discriminate.
      - now rewrite IH. }
    now rewrite Hp.
  - intros g H. destruct (gatherElements_loop _ _ H) as [Hl [Ho _]].
    destruct (loopOnElements_passes _ _ _ _ _ _ _ Hl) as [H1 H2].
    rewrite alive_map_Some in H2. rewrite Ho. fold (alive (left g)). lia.
Qed.

Lemma fixpoint_loop_terminates_witness :
  1 <= passes billing_and_address_gathered /\
  (passes billing_and_address_gathered - 1) +
    List.length (orphans billing_and_address_gathered) <=
    List.length billing_and_address /\
  passes billing_and_address_gathered <= List.length billing_and_address + 1.
Proof.
  exact (proj2 (proj2 (proj2 (proj2
           (fixpoint_loop_terminates billing_and_address))))
           billing_and_address_gathered eq_refl).
Defined.

(** C5 as stated fails: one element without a pargroup takes two calls of
    [loopOnElements], the second one to find that nothing is left. *)
Lemma one_element_two_passes :
  gatherElements [field "email" "what@evv.err"] =
  Some (Ok {| values := [("email", VStr "what@evv.err")];
              left := [None];
              orphans := [];
              console := [];
              passes := 2 |}) /\
  ~ 2 <= List.length [field "email" "what@evv.err"].
Proof. split; [reflexivity|simpl; lia]. Qed.

(** C9.  The colon-path builder keeps the invariant: its tree has at most
    as many leaves holding a string as there are records with that value.
    The pargroup builder breaks it at [billing_and_address]: the value of
    the last element, the only one that is ["59.9"], ends up in two leaves,
    under [billing.address.geo] and under [address.geo]: after the recursive
    call has added the element, the loop of the caller goes on and adds it
    again. *)
Theorem value_added_twice :
  (forall s val_objs,
     leaf_count_in s (Informer.groupValues val_objs) <=
     List.length (filter (fun r => Informer.value r =? s) val_objs)) /\
  gatherElements billing_and_address =
  Some (Ok {| values :=
                [("billing",
                  VObj [("card", VStr "4111");
                        ("address",
                         VObj [("zip", VStr "0150");
                               ("geo", VObj [("lat", VStr "59.9")])])]);
                 ("address",
                  VObj [("city", VStr "Oslo");
                        ("geo", VObj [("lat", VStr "59.9")])])];
              left := [None; None; None; None];
              orphans := [];
              console := [];
              passes := 3 |}) /\
  leaf_count_in "59.9" (values billing_and_address_gathered) = 2 /\
  List.length (filter (fun e => val e =? "59.9") billing_and_address) = 1.
Proof.
  split; [exact InformerFacts.groupValues_leaves|]. repeat split.
Qed.

End InformerClassFacts.

(** ** More on colon-path grouping *)

Module InformerMore.
Import Dom Informer Paths InformerFacts.


Lemma diverge_sym p : forall q, diverge p q = diverge q p.
Proof.
  induction p as [|a p IH]; intros [|b q]; simpl; auto.
  rewrite (String.eqb_sym a b). destruct (b =? a); auto.
Qed.


(** A path that parts ways with the keys of a fragment finds nothing in it,
    whether the fragment ends in the value or in an inherited member. *)
Lemma lookup_fragment_diverge keys' : forall key0 n x p,
  diverge p (key0 :: keys' ++ [n]) = true ->
  lookup_path p (VObj (buildNestedObject key0 keys' (VObj [(n, x)]))) = None.
Proof.
  induction keys' as [|key1 keys' IH]; intros key0 n x [|a p] H;
    try discriminate; simpl in H.
  - destruct (a =? key0) eqn:E.
    + destruct p as [|b p]; [discriminate|]. simpl in H.
      destruct (b =? n) eqn:E'; [now destruct p|].
      rewrite String.eqb_sym in E, E'.
      cbn [buildNestedObject].
      destruct (inherited key0); [destruct (constructor_is_Object _)|];
        rewrite set_nil; simpl; rewrite E; simpl; rewrite ?E'; reflexivity.
    + rewrite String.eqb_sym in E.
      destruct (buildNestedObject_single [] key0 (VObj [(n, x)])) as [y ->].
      simpl. now rewrite E.
  - cbn [buildNestedObject]. rewrite set_nil. simpl.
    rewrite (String.eqb_sym key0 a).
    destruct (a =? key0) eqn:E; [|reflexivity].
    now apply IH.
Qed.

(** Merging a fragment puts nothing at a path that parts ways with the keys
    of the fragment. *)
Lemma lookup_merge_none keys' : forall key0 n v obj1 p,
  diverge p (key0 :: keys' ++ [n]) = true ->
  lookup_path p (VObj obj1) = None ->
  lookup_path p
    (VObj (mergeObjects obj1
             (buildNestedObject key0 keys' (VObj [(n, VStr v)])))) = None.
Proof.
  induction keys' as [|key1 keys' IH]; intros key0 n v obj1 [|a p] H H0;
    try discriminate.
  - pose proof (lookup_fragment_diverge [] key0 n (VStr v) (a :: p) H) as Hf.
    destruct (buildNestedObject_single [] key0 (VObj [(n, VStr v)])) as [y Hy].
    assert (Hy' : y = VFun key0 \/ y = VObj [(n, VStr v)]).
    { cbn [buildNestedObject] in Hy.
      destruct (inherited key0); [destruct (constructor_is_Object _)|];
        rewrite set_nil in Hy; injection Hy as <-; auto. }
    rewrite Hy in Hf |- *. clear Hy. rewrite mergeObjects_single.
    simpl in H, H0, Hf |- *.
    destruct (a =? key0) eqn:E.
    + apply String.eqb_eq in E. subst a. rewrite String.eqb_refl in Hf.
      rewrite get_set_same. unfold merged.
      destruct (Obj.get key0 obj1) as [[s|x1|m]|]; try exact Hf.
      destruct Hy' as [-> | ->]; [exact Hf|].
      destruct (_ && _)%bool; [|exact Hf].
      (* the last level: the value is written into the object that is there *)
      rewrite mergeObjects_single.
      destruct p as [|b p]; [discriminate|]. simpl in H.
      destruct (b =? n) eqn:E'; [now destruct p|].
      apply String.eqb_neq in E'. simpl.
      rewrite get_set_other by congruence. exact H0.
    + apply String.eqb_neq in E. rewrite get_set_other by congruence.
      exact H0.
  - cbn [buildNestedObject]. rewrite set_nil, mergeObjects_single.
    simpl in H. simpl.
    destruct (a =? key0) eqn:E.
    + apply String.eqb_eq in E. subst a. rewrite get_set_same.
      simpl in H0.
      pose proof (lookup_fragment_diverge keys' key1 n (VStr v) p H) as Hf.
      unfold merged.
      destruct (Obj.get key0 obj1) as [[s|x1|m]|]; try exact Hf.
      destruct (_ && _)%bool; [|exact Hf].
      now apply IH.
    + apply String.eqb_neq in E. rewrite get_set_other by congruence.
      exact H0.
Qed.

Lemma step_none acc r p :
  diverge p (record_path r) = true ->
  lookup_path p (VObj acc) = None ->
  lookup_path p (VObj (groupValues_step acc r)) = None.
Proof.
  unfold groupValues_step, record_path.
  destruct (truthy_attr (group r)).
  - rewrite set_nil.
    destruct (split ":"%char (to_key (group r))) as [key0 keys'].
    apply lookup_merge_none.
  - destruct p as [|a p]; [discriminate|]. simpl.
    destruct (a =? to_key (name r)) eqn:E; [now destruct p|].
    intros _. apply String.eqb_neq in E. now rewrite get_set_other.
Qed.

(** *** Trees of ordinary keys *)

Abbreviation ordinary := (Provenance.props_all (fun k => inherited k = false)
                                               (fun _ => True)).

Lemma ordinary_get_none k o :
  ordinary o -> inherited k = true -> Obj.get k o = None.
Proof.
  intros Ho Hk. destruct (Obj.get k o) as [x|] eqn:G; [|reflexivity].
  pose proof (props_all_get_key _ _ _ _ _ Ho G) as H. simpl in H. congruence.
Qed.

Lemma ordinary_constructor o :
  ordinary o -> constructor_is_Object (VObj o) = true.
Proof.
  intros Ho. unfold constructor_is_Object, read.
  now rewrite (ordinary_get_none "constructor" o Ho eq_refl).
Qed.








(** *** Keys *)

Lemma keys_replace (A : Type) k (v : A) o :
  Obj.keys (Obj.replace k v o) = Obj.keys o.
Proof.
  induction o as [|[k0 v0] o IH]; simpl; auto.
  destruct (k0 =? k); simpl; [reflexivity|now rewrite IH].
Qed.

Lemma in_keys_insert_index (A : Type) i k (v : A) k' : forall o,
  In k' (Obj.keys (Obj.insert_index i k v o)) <-> k = k' \/ In k' (Obj.keys o).
Proof.
  induction o as [|[k0 v0] o IH]; simpl; [tauto|].
  destruct (Obj.array_index k0) as [j|]; simpl; [|tauto].
  destruct (j <? i)%N; simpl; tauto.
Qed.

Lemma in_keys_get (A : Type) k (o : Obj.t A) :
  In k (Obj.keys o) <-> Obj.get k o <> None.
Proof.
  induction o as [|[k0 v0] o IH]; simpl; [tauto|].
  destruct (k0 =? k) eqn:E.
  - apply String.eqb_eq in E. split; [discriminate|auto].
  - apply String.eqb_neq in E. tauto.
Qed.

Lemma in_keys_set (A : Type) k (v : A) k' o :
  In k' (Obj.keys (Obj.set k v o)) <-> k = k' \/ In k' (Obj.keys o).
Proof.
  unfold Obj.set. destruct (Obj.get k o) eqn:G.
  - rewrite keys_replace. split; [tauto|]. intros [<-|H]; [|exact H].
    apply in_keys_get. congruence.
  - destruct (Obj.array_index k).
    + apply in_keys_insert_index.
    + unfold Obj.keys. rewrite map_app, in_app_iff. simpl. tauto.
Qed.

Lemma nodup_keys_insert_index (A : Type) i k (v : A) : forall o,
  ~ In k (Obj.keys o) -> NoDup (Obj.keys o) ->
  NoDup (Obj.keys (Obj.insert_index i k v o)).
Proof.
  induction o as [|[k0 v0] o IH]; simpl; intros Hk Hnd.
  - constructor; [tauto|constructor].
  - destruct (Obj.array_index k0) as [j|]; simpl.
    + destruct (j <? i)%N; simpl.
      * inversion Hnd; subst. constructor.
        -- rewrite in_keys_insert_index. intuition congruence.
        -- apply IH; tauto.
      * constructor; auto.
    + constructor; auto.
Qed.

Lemma nodup_keys_set (A : Type) k (v : A) o :
  NoDup (Obj.keys o) -> NoDup (Obj.keys (Obj.set k v o)).
Proof.
  intros Hnd. unfold Obj.set. destruct (Obj.get k o) eqn:G.
  - now rewrite keys_replace.
  - assert (Hk : ~ In k (Obj.keys o)) by (rewrite in_keys_get; congruence).
    destruct (Obj.array_index k).
    + now apply nodup_keys_insert_index.
    + unfold Obj.keys. rewrite map_app. simpl.
      apply NoDup_app; [exact Hnd|repeat constructor; simpl; tauto|].
      intros x Hx [<-|[]]. exact (Hk Hx).
Qed.

Lemma in_keys_mergeObjects obj2 : forall obj1 k,
  In k (Obj.keys (mergeObjects obj1 obj2)) <->
  In k (Obj.keys obj1) \/ In k (Obj.keys obj2).
Proof.
  induction obj2 as [|[k2 x2] obj2 IH]; intros obj1 k.
  - rewrite mergeObjects_nil. simpl. tauto.
  - rewrite mergeObjects_cons, IH, in_keys_set. simpl. tauto.
Qed.

(** *** Objects with distinct keys *)

Lemma distinct_keys_obj o :
  distinct_keys (VObj o) <-> NoDup (Obj.keys o) /\ distinct_keys_in o.
Proof.
  simpl. assert (H : forall props,
    (fix all (props : obj) : Prop :=
       match props with
       | [] => True
       | (_, x) :: props' => distinct_keys x /\ all props'
       end) props <-> distinct_keys_in props).
  { induction props as [|[k x] props IH]; simpl; tauto. }
  rewrite H. tauto.
Qed.

Lemma distinct_keys_in_get k x : forall o,
  distinct_keys_in o -> Obj.get k o = Some x -> distinct_keys x.
Proof.
  induction o as [|[k0 v0] o IH]; simpl; intros Hd Hg; [discriminate|].
  destruct (k0 =? k); [injection Hg as <-; tauto|apply IH; tauto].
Qed.

Lemma distinct_keys_in_replace k x : forall o,
  distinct_keys_in o -> distinct_keys x -> distinct_keys_in (Obj.replace k x o).
Proof.
  induction o as [|[k0 v0] o IH]; simpl; intros Hd Hx; auto.
  destruct (k0 =? k); simpl; tauto.
Qed.

Lemma distinct_keys_in_insert_index i k x : forall o,
  distinct_keys_in o -> distinct_keys x ->
  distinct_keys_in (Obj.insert_index i k x o).
Proof.
  induction o as [|[k0 v0] o IH]; simpl; intros Hd Hx; auto.
  destruct (Obj.array_index k0) as [j|]; simpl; [|tauto].
  destruct (j <? i)%N; simpl; tauto.
Qed.

Lemma distinct_keys_in_app : forall o o',
  distinct_keys_in o -> distinct_keys_in o' -> distinct_keys_in (o ++ o').
Proof.
  induction o as [|[k0 v0] o IH]; simpl; intros o' Hd Hd'; auto.
  split; [tauto|apply IH; tauto].
Qed.

Lemma distinct_keys_set k x o :
  distinct_keys (VObj o) -> distinct_keys x ->
  distinct_keys (VObj (Obj.set k x o)).
Proof.
  rewrite !distinct_keys_obj. intros [Hnd Hd] Hx. split.
  - now apply nodup_keys_set.
  - unfold Obj.set. destruct (Obj.get k o).
    + now apply distinct_keys_in_replace.
    + destruct (Obj.array_index k).
      * now apply distinct_keys_in_insert_index.
      * apply distinct_keys_in_app; simpl; auto.
Qed.

Lemma distinct_keys_mergeInto v2 : forall obj1,
  distinct_keys v2 -> distinct_keys (VObj obj1) ->
  distinct_keys (VObj (mergeInto obj1 v2)).
Proof.
  induction v2 as [s2|obj2 IH|m] using tree_ind; intros obj1 H2 H1.
  - exact H1.
  - change (mergeInto obj1 (VObj obj2)) with (mergeObjects obj1 obj2).
    apply distinct_keys_obj in H2. destruct H2 as [_ H2].
    revert obj1 H1 H2.
    induction IH as [|[k x2] obj2 Hx _ IHobj2]; intros obj1 H1 H2.
    + now rewrite mergeObjects_nil.
    + rewrite mergeObjects_cons. simpl in Hx, H2. destruct H2 as [Hx2 H2].
      apply IHobj2; [|exact H2].
      apply distinct_keys_set; [exact H1|].
      unfold merged. destruct (Obj.get k obj1) as [[s1|x1|m1]|] eqn:G; auto.
      destruct x2 as [s2|y2|m2]; auto.
      destruct (_ && _)%bool; [|exact Hx2].
      apply (Hx x1 Hx2).
      apply distinct_keys_obj in H1. destruct H1 as [_ H1].
      exact (distinct_keys_in_get _ _ _ H1 G).
  - exact H1.
Qed.

Lemma distinct_keys_buildNestedObject keys' : forall key0 end_val,
  distinct_keys end_val ->
  distinct_keys (VObj (buildNestedObject key0 keys' end_val)).
Proof.
  induction keys' as [|key1 keys' IH]; intros key0 end_val H;
    cbn [buildNestedObject];
    [destruct (inherited key0); [destruct (constructor_is_Object end_val)|]|];
    rewrite set_nil; apply distinct_keys_obj;
    (split; [repeat constructor; simpl; tauto|]);
    cbn [distinct_keys_in]; (split; [|exact I]);
    try exact H; try exact I.
  apply IH. exact H.
Qed.

Lemma distinct_keys_step acc r :
  distinct_keys (VObj acc) -> distinct_keys (VObj (groupValues_step acc r)).
Proof.
  intros H. unfold groupValues_step. destruct (truthy_attr (group r)).
  - rewrite set_nil.
    destruct (split ":"%char (to_key (group r))) as [key0 keys'].
    apply (distinct_keys_mergeInto
             (VObj (buildNestedObject key0 keys'
                      (VObj [(to_key (name r), VStr (value r))]))));
      [|exact H].
    apply distinct_keys_buildNestedObject. apply distinct_keys_obj. simpl.
    repeat constructor; auto.
  - apply distinct_keys_set; simpl; auto.
Qed.

(** *** The tree that [groupValues] returns *)

Lemma groupValues_cons_fold rs : forall acc r,
  fold_left groupValues_step (r :: rs) acc =
  fold_left groupValues_step rs (groupValues_step acc r).
Proof. reflexivity. Qed.



(** The tree holds nothing at a path that parts ways with the path of every
    record: no key is made up. *)
Theorem nothing_off_the_record_paths : forall rs p,
  (forall r, In r rs -> diverge p (record_path r) = true) ->
  p <> [] ->
  lookup_path p (VObj (groupValues rs)) = None.
Proof.
  intros rs p H Hp. unfold groupValues.
  assert (H0 : lookup_path p (VObj []) = None) by (destruct p; [congruence|reflexivity]).
  revert H0. generalize (@nil (string * tree)) as acc.
  induction rs as [|r rs IH]; intros acc H0; simpl.
  - exact H0.
  - apply IH.
    + intros r' Hin. apply H. now right.
    + apply step_none; [|exact H0]. apply H. now left.
Qed.

Lemma nothing_off_the_record_paths_witness :
  lookup_path ["user"; "personal"; "email"]
    (VObj (groupValues
             [ {| value := "what@evv.err"; name := AStr "email";
                  group := AStr "user:login" |} ])) = None.
Proof.
  apply (nothing_off_the_record_paths
           [ {| value := "what@evv.err"; name := AStr "email";
                group := AStr "user:login" |} ]
           ["user"; "personal"; "email"]).
  - intros r [<-|[]]. reflexivity.
  - discriminate.
Defined.

(** Every object of the tree that [groupValues] returns, at any depth, has
    each of its keys once. *)
Theorem groupValues_distinct_keys : forall val_objs,
  distinct_keys (VObj (groupValues val_objs)).
Proof.
  intros val_objs. unfold groupValues.
  assert (H0 : distinct_keys (VObj [])) by (simpl; split; [constructor|exact I]).
  revert H0. generalize (@nil (string * tree)) as acc.
  induction val_objs as [|r rs IH]; intros acc H0; simpl; [exact H0|].
  apply IH. now apply distinct_keys_step.
Qed.

(** [mergeObjects] never drops a key and never adds one of its own: the keys
    of the result are those of the first object and those of the second. *)
Theorem mergeObjects_keys : forall obj1 obj2 k,
  In k (Obj.keys (mergeObjects obj1 obj2)) <->
  In k (Obj.keys obj1) \/ In k (Obj.keys obj2).
Proof. intros obj1 obj2 k. apply in_keys_mergeObjects. Qed.

(** *** Clearing *)

Lemma nth_error_in_range (A : Type) (l : list A) i :
  i < List.length l -> exists x, nth_error l i = Some x /\ In x l.
Proof.
  revert i. induction l as [|a l IH]; intros [|i] H; simpl in *; try lia.
  - eauto.
  - destruct (IH i) as [x [Hx Hin]]; [lia|eauto].
Qed.

Lemma clear_each_all_fixed fixed tag f : forall indices,
  (forall e, In e (getElementsByTagName tag f) -> hasAttribute fixed e = true) ->
  (forall i, In i indices -> i < List.length (getElementsByTagName tag f)) ->
  clear_each fixed tag indices f = (f, Normal).
Proof.
  induction indices as [|i indices IH]; intros Hfix Hrange; simpl; [reflexivity|].
  destruct (nth_error_in_range _ (getElementsByTagName tag f) i) as [e [-> Hin]].
  - apply Hrange. now left.
  - rewrite (Hfix e Hin). apply IH; auto. intros j Hj. apply Hrange. now right.
Qed.

Lemma clear_tags_all_fixed fixed f : forall tags,
  (forall tag e, In tag tags -> In e (getElementsByTagName tag f) ->
                 hasAttribute fixed e = true) ->
  clear_tags fixed tags f = (f, Normal).
Proof.
  induction tags as [|tag tags IH]; intros H; simpl; [reflexivity|].
  rewrite clear_each_all_fixed.
  - apply IH. intros t e Ht. apply H. now right.
  - intros e. apply H. now left.
  - intros i Hi. apply in_seq in Hi. lia.
Qed.

(** When every input, select and textarea of the form carries the fixed
    attribute, clearing changes nothing and ends normally. *)
Theorem clear_keeps_fixed_form : forall c f,
  (forall e, In e (descendants f) -> Events.scanned e = true ->
             hasAttribute (elem_attr_fixed c) e = true) ->
  clearFormValues c f = (f, Normal).
Proof.
  intros c f H. unfold clearFormValues. apply clear_tags_all_fixed.
  intros tag e Ht He. unfold getElementsByTagName in He.
  apply filter_In in He. destruct He as [He Htag]. apply (H e He).
  unfold Events.scanned. apply existsb_exists. exists tag. auto.
Qed.

Lemma clear_keeps_fixed_form_witness :
  clearFormValues plain_conf
    {| form_attributes := []; descendants := [disabled_input] |} =
  ({| form_attributes := []; descendants := [disabled_input] |}, Normal).
Proof.
  apply clear_keeps_fixed_form. intros e [<-|[]] _. reflexivity.
Defined.

(** Clearing a form that holds a single field which lacks the fixed
    attribute throws, the field keeping its value: the assignment goes to
    the second element of the kind, and there is none. *)
Theorem clear_lone_field_throws : forall c attrs e,
  Events.scanned e = true ->
  hasAttribute (elem_attr_fixed c) e = false ->
  clearFormValues c {| form_attributes := attrs; descendants := [e] |} =
  ({| form_attributes := attrs; descendants := [e] |}, Thrown).
Proof.
  intros c attrs e Hs Hf. unfold clearFormValues, input_types.
  unfold Events.scanned, input_types in Hs. simpl in Hs.
  unfold clear_tags.
  destruct (tagName e =? "input") eqn:E1;
    [|destruct (tagName e =? "select") eqn:E2;
      [|destruct (tagName e =? "textarea") eqn:E3; [|discriminate]]];
    repeat (cbn [List.length seq clear_each getElementsByTagName descendants
                 filter nth_error set_value_of_nth form_attributes option_map];
            rewrite ?E1, ?E2, ?E3, ?Hf);
    reflexivity.
Qed.

Lemma clear_lone_field_throws_witness :
  clearFormValues plain_conf
    {| form_attributes := []; descendants := [email_input] |} =
  ({| form_attributes := []; descendants := [email_input] |}, Thrown).
Proof.
  apply clear_lone_field_throws; reflexivity.
Defined.







End InformerMore.

(** ** Scanning, name resolution and events *)

Module EventsFacts.
Import Dom Informer Events InformerFacts.

Lemma filter_kinds_perm (l : list element) :
  Permutation
    (filter (fun e => tagName e =? "input") l ++
     filter (fun e => tagName e =? "select") l ++
     filter (fun e => tagName e =? "textarea") l)
    (filter scanned l).
Proof.
  induction l as [|e l IH]; simpl; [constructor|].
  unfold scanned at 1. simpl.
  destruct (tagName e =? "input") eqn:E1.
  - apply String.eqb_eq in E1. rewrite E1. simpl. now constructor.
  - destruct (tagName e =? "select") eqn:E2.
    + apply String.eqb_eq in E2. rewrite E2. simpl.
      apply Permutation_sym, Permutation_cons_app, Permutation_sym, IH.
    + destruct (tagName e =? "textarea") eqn:E3; simpl.
      * rewrite app_assoc.
        apply Permutation_sym, Permutation_cons_app, Permutation_sym.
        rewrite <- app_assoc. exact IH.
      * exact IH.
Qed.

Lemma filter_all_true (A : Type) (f : A -> bool) l :
  (forall x, In x l -> f x = true) -> filter f l = l.
Proof.
  induction l as [|x l IH]; simpl; intros H; [reflexivity|].
  rewrite (H x (or_introl eq_refl)). f_equal. apply IH. auto.
Qed.

Lemma filter_all_false (A : Type) (f : A -> bool) l :
  (forall x, In x l -> f x = false) -> filter f l = [].
Proof.
  induction l as [|x l IH]; simpl; intros H; [reflexivity|].
  rewrite (H x (or_introl eq_refl)). apply IH. auto.
Qed.

(** Both revisions make one record for each input, select and textarea
    element of the form and none for any other element; in both, the
    records come kind by kind, inputs, then selects, then textareas, in
    document order within a kind, so that a form holding inputs only is read
    in document order. *)
Theorem one_record_per_scanned_element : forall f,
  let elems := (getElementsByTagName "input" f ++
                getElementsByTagName "select" f ++
                getElementsByTagName "textarea" f)%list in
  elemsToObjs f = map elemToObject elems /\
  InformerClass.buildElementsArray f = map Revisions.entry_of elems /\
  Permutation elems (filter scanned (descendants f)) /\
  ((forall e, In e (descendants f) -> tagName e = "input") ->
   elemsToObjs f = map elemToObject (descendants f) /\
   InformerClass.buildElementsArray f =
   map Revisions.entry_of (descendants f)).
Proof.
  intros f elems.
  assert (E : elemsToObjs f = map elemToObject elems).
  { unfold elemsToObjs, input_types, elems. simpl.
    now rewrite app_nil_r, !map_app. }
  assert (E' : InformerClass.buildElementsArray f =
               map Revisions.entry_of elems).
  { unfold InformerClass.buildElementsArray, input_types, elems. simpl.
    now rewrite app_nil_r, !map_app. }
  split; [exact E|]. split; [exact E'|]. split.
  - apply filter_kinds_perm.
  - intros H.
    assert (Ee : elems = descendants f).
    { unfold elems, getElementsByTagName.
      rewrite (filter_all_true _ _ (descendants f)),
              (filter_all_false _ _ (descendants f)),
              (filter_all_false _ _ (descendants f)).
      - now rewrite !app_nil_r.
      - intros e He. now rewrite (H e He).
      - intros e He. now rewrite (H e He).
      - intros e He. now rewrite (H e He). }
    rewrite E, E', Ee. split; reflexivity.
Qed.

Lemma one_record_per_scanned_element_witness :
  elemsToObjs two_input_form = map elemToObject (descendants two_input_form) /\
  InformerClass.buildElementsArray two_input_form =
  map Revisions.entry_of (descendants two_input_form).
Proof.
  apply (proj2 (proj2 (proj2 (one_record_per_scanned_element two_input_form)))).
  intros e [<-|[<-|[]]]; reflexivity.
Defined.

(** *** Names of functions *)

Lemma split_without c s : contains c s = false -> split c s = (s, []).
Proof.
  induction s as [|c' s IH]; simpl; intros H; [reflexivity|].
  apply orb_false_iff in H. destruct H as [H1 H2].
  rewrite (IH H2), H1. reflexivity.
Qed.

Lemma split_at c a b :
  contains c a = false ->
  split c (a ++ String c b) =
  (a, fst (split c b) :: snd (split c b)).
Proof.
  induction a as [|c' a IH]; simpl; intros H.
  - rewrite Ascii.eqb_refl. now destruct (split c b).
  - apply orb_false_iff in H. destruct H as [H1 H2].
    rewrite (IH H2), H1. reflexivity.
Qed.

Lemma walk_undefined namespaces func :
  match walk WUndefined namespaces with
  | TypeError => True
  | Ok context => member context func = TypeError
  end.
Proof. destruct namespaces; simpl; reflexivity. Qed.

Lemma stringToFunction_dotless members name :
  contains "."%char name = false ->
  stringToFunction name (WObject members) =
  Ok match Obj.get name members with
     | Some (WFunction id) => CbFunction id
     | _ => CbFalse
     end.
Proof.
  intros H. unfold stringToFunction. rewrite (split_without _ _ H).
  simpl. now destruct (Obj.get name members) as [[]|].
Qed.

(** How [stringToFunction] resolves a name against the global object.  A
    name without a dot never throws: it gives the function of that name, or
    [false].  A name [ns.rest] throws when the global object has no [ns],
    instead of giving [false].  A name [ns.f] whose [ns] is an object gives
    the function [f] of that object, or [false]. *)
Theorem stringToFunction_resolution : forall members,
  (forall name,
     contains "."%char name = false ->
     stringToFunction name (WObject members) =
     Ok match Obj.get name members with
        | Some (WFunction id) => CbFunction id
        | _ => CbFalse
        end) /\
  (forall ns rest,
     contains "."%char ns = false ->
     Obj.get ns members = None ->
     stringToFunction (ns ++ String "."%char rest) (WObject members) =
     TypeError) /\
  (forall ns f inner,
     contains "."%char ns = false ->
     contains "."%char f = false ->
     Obj.get ns members = Some (WObject inner) ->
     stringToFunction (ns ++ String "."%char f) (WObject members) =
     Ok match Obj.get f inner with
        | Some (WFunction id) => CbFunction id
        | _ => CbFalse
        end).
Proof.
  intros members. split; [|split].
  - intros name H. now apply stringToFunction_dotless.
  - intros ns rest H G. unfold stringToFunction. rewrite (split_at _ _ _ H).
    destruct (split "."%char rest) as [h t]. cbn [fst snd].
    change (removelast (ns :: h :: t)) with (ns :: removelast (h :: t)).
    cbn [walk member]. rewrite G.
    pose proof (walk_undefined (removelast (h :: t)) (last (h :: t) ns)) as W.
    destruct (walk WUndefined (removelast (h :: t))); [now rewrite W|reflexivity].
  - intros ns f inner Hns Hf G. unfold stringToFunction.
    rewrite (split_at _ _ _ Hns), (split_without _ _ Hf). simpl. rewrite G.
    simpl. now destruct (Obj.get f inner) as [[]|].
Qed.

Lemma stringToFunction_resolution_witness :
  stringToFunction ("app" ++ String "."%char "done") (WObject []) = TypeError.
Proof.
  apply (proj1 (proj2 (stringToFunction_resolution [])) "app" "done");
    reflexivity.
Defined.

(** *** Submission *)

(** [handleSubmission] sends at most one request and removes none; when it
    sends one, it ends normally and the form has become the last form; it
    sends nothing when it throws, and nothing for a form that lacks an
    [action] or a [method]. *)
Theorem handleSubmission_effects : forall env c form st,
  let st' := fst (handleSubmission env c form st) in
  let completed := snd (handleSubmission env c form st) in
  (requests st' = requests st \/
   exists r, requests st' = requests st ++ [r] /\ completed = Normal /\
             last_action_form st' = Some form /\
             present (formAttribute "action" form) <> None /\
             present (formAttribute "method" form) <> None) /\
  (completed = Thrown -> requests st' = requests st).
Proof.
  intros env c form st. unfold handleSubmission.
  rewrite !truthy_attr_or_null.
  destruct (present (formAttribute "action" form)) as [u|];
    [destruct (present (formAttribute "method" form)) as [m|]|]; cbn [andb].
  - destruct (callbackFor env c form) as [func|].
    + destruct (existsb _ (Http env)); simpl.
      * split; [right; eexists; repeat split; discriminate|discriminate].
      * split; [now left|auto].
    + simpl. split; [now left|auto].
  - simpl. split; [now left|discriminate].
  - simpl. split; [now left|discriminate].
Qed.

(** *** The enclosing form *)

Lemma getNearestParent_steps before : forall rest,
  Forall (fun m => is_form m = false /\ isBody m = false) before ->
  getNearestParent (before ++ rest) "form" = getNearestParent rest "form".
Proof.
  induction before as [|m before IH]; intros rest H; [reflexivity|].
  inversion H as [|? ? [Hf Hb] H']; subst. simpl.
  unfold is_form in Hf. destruct (nodeTag m) as [tag|]; simpl.
  - destruct (tag =? EmptyString); [now apply IH|].
    rewrite Hf, Hb. simpl. now apply IH.
  - now apply IH.
Qed.

Lemma is_form_present n :
  is_form n = true ->
  exists tag, present (nodeTag n) = Some tag /\ (toLowerCase tag =? "form") = true.
Proof.
  unfold is_form. destruct (nodeTag n) as [tag|]; [|discriminate].
  intros H. exists tag. split; [|exact H]. simpl.
  destruct tag; [discriminate|reflexivity].
Qed.

Lemma getNearestParent_form before f after :
  Forall (fun m => is_form m = false /\ isBody m = false) before ->
  is_form f = true -> isBody f = false ->
  getNearestParent (before ++ f :: after) "form" = Ok (Some f).
Proof.
  intros H Hf Hb. rewrite (getNearestParent_steps _ _ H). simpl.
  destruct (is_form_present _ Hf) as [tag [-> Ht]]. now rewrite Ht, Hb.
Qed.

Lemma getNearestParent_body before b after :
  Forall (fun m => is_form m = false /\ isBody m = false) before ->
  isBody b = true -> present (nodeTag b) <> None ->
  getNearestParent (before ++ b :: after) "form" = Ok None.
Proof.
  intros H Hb Ht. rewrite (getNearestParent_steps _ _ H). simpl.
  destruct (present (nodeTag b)) as [tag|]; [|congruence].
  rewrite Hb. simpl. now rewrite andb_false_r.
Qed.

(** The search of the module revision answers with the nearest form: the
    first form of the chain, the nodes before it being neither forms nor
    the body.  It answers [false] when it meets the body first, and it
    throws when the chain ends before a form or the body is met. *)
Theorem getNearestParent_nearest : forall before,
  Forall (fun m => is_form m = false /\ isBody m = false) before ->
  (forall f after,
     is_form f = true -> isBody f = false ->
     getNearestParent (before ++ f :: after) "form" = Ok (Some f)) /\
  (forall b after,
     isBody b = true -> present (nodeTag b) <> None ->
     getNearestParent (before ++ b :: after) "form" = Ok None) /\
  getNearestParent before "form" = TypeError.
Proof.
  intros before H. split; [|split].
  - intros f after Hf Hb. now apply getNearestParent_form.
  - intros b after Hb Ht. now apply getNearestParent_body.
  - rewrite <- (app_nil_r before).
    now rewrite (getNearestParent_steps _ _ H).
Qed.

Lemma getNearestParent_nearest_witness :
  getNearestParent
    ([ {| nodeTag := Some "INPUT"; isBody := false; asForm := post_form |} ]
     ++ {| nodeTag := Some "FORM"; isBody := false; asForm := post_form |}
     :: [ {| nodeTag := Some "BODY"; isBody := true; asForm := post_form |} ])
    "form" =
  Ok (Some {| nodeTag := Some "FORM"; isBody := false; asForm := post_form |}).
Proof.
  refine (proj1 (getNearestParent_nearest
                   [ {| nodeTag := Some "INPUT"; isBody := false;
                        asForm := post_form |} ] _) _ _ _ _).
  - repeat constructor.
  - reflexivity.
  - reflexivity.
Defined.

(** On a chain whose nodes all have a [tagName] the search of the
    constructor revision gives what the search of the module revision
    gives; on a target without one (a text node) the former throws, where
    the latter goes on to the parent. *)
Theorem form_searches_agree :
  (forall chain,
     Forall (fun m => present (nodeTag m) <> None) chain ->
     getCallerFromEvent chain = getNearestParent chain "form") /\
  (forall n chain,
     nodeTag n = None -> isBody n = false ->
     getCallerFromEvent (n :: chain) = TypeError /\
     getNearestParent (n :: chain) "form" = getNearestParent chain "form").
Proof.
  split.
  - induction chain as [|m chain IH]; intros H; [reflexivity|].
    inversion H as [|? ? Hm H']; subst. simpl.
    destruct (nodeTag m) as [tag|]; [|simpl in Hm; congruence]. simpl in *.
    destruct (tag =? EmptyString); [congruence|].
    destruct (isBody m) eqn:Hb.
    + now rewrite andb_false_r.
    + destruct (toLowerCase tag =? "form"); simpl; [reflexivity|now apply IH].
  - intros n chain Hn Hb. simpl. rewrite Hn, Hb. auto.
Qed.

Lemma form_searches_agree_witness :
  getCallerFromEvent
    [ {| nodeTag := Some "INPUT"; isBody := false; asForm := post_form |};
      {| nodeTag := Some "FORM"; isBody := false; asForm := post_form |} ] =
  getNearestParent
    [ {| nodeTag := Some "INPUT"; isBody := false; asForm := post_form |};
      {| nodeTag := Some "FORM"; isBody := false; asForm := post_form |} ]
    "form".
Proof.
  apply (proj1 form_searches_agree).
  repeat constructor; discriminate.
Defined.

(** *** Triggering *)

Lemma handleAction_effects env c form st :
  let '(st', calls, completed) := handleAction env c form st in
  requests st' = requests st /\
  (calls = [] \/
   exists id, calls = [(id, form)] /\ last_action_form st' = Some form /\
              console st' = console st /\ completed = Normal) /\
  (console st' = console st \/
   console st' = console st ++ [not_callable_message] /\ calls = [] /\
   last_action_form st' = last_action_form st /\ completed = Normal).
Proof.
  unfold handleAction.
  destruct (truthy_attr (or_null (formAttribute (elem_attr_trigger c) form))).
  - destruct (stringToFunction _ (window env)) as [[| |id]|]; simpl;
      repeat split; eauto 10.
  - simpl. repeat split; auto.
Qed.

(** [trigger] never sends a request.  It calls at most one function; when
    it calls one, it hands it the form it recorded as the last form and
    writes nothing to the console; the only line it ever writes is the
    diagnostic of an attribute that names no function, and then it calls
    nothing. *)
Theorem trigger_effects : forall env c evt current st,
  let '(st', calls, completed) := trigger env c evt current st in
  requests st' = requests st /\
  (calls = [] \/
   exists id f, calls = [(id, f)] /\ last_action_form st' = Some f /\
                console st' = console st /\ completed = Normal) /\
  (console st' = console st \/
   console st' = console st ++ [not_callable_message] /\ calls = [] /\
   last_action_form st' = last_action_form st /\ completed = Normal).
Proof.
  intros env c evt current st. unfold trigger.
  destruct (getFormFromEvent evt current) as [[n|]|].
  - pose proof (handleAction_effects env c (asForm n) st) as H.
    destruct (handleAction env c (asForm n) st) as [[st' calls] completed].
    destruct H as [H1 [H2 H3]]. split; [exact H1|]. split; [|exact H3].
    destruct H2 as [H2|[id H2]]; [now left|right; eauto].
  - repeat split; auto.
  - repeat split; auto.
Qed.

(** An event whose target lies in a form, the nearest one, whose trigger
    attribute is the plain name of a function of the global object: that
    function is called, once, with that form, which becomes the last form.
    An event whose target meets the body before any form: nothing happens,
    not even a diagnostic. *)
Theorem trigger_dispatch : forall env c current st before after kind,
  Forall (fun m => is_form m = false /\ isBody m = false) before ->
  (forall f fname members id,
     is_form f = true -> isBody f = false ->
     present (formAttribute (elem_attr_trigger c) (asForm f)) = Some fname ->
     contains "."%char fname = false ->
     window env = WObject members ->
     Obj.get fname members = Some (WFunction id) ->
     trigger env c
       (Some {| type := kind; target := before ++ f :: after |}) current st =
     ({| last_action_form := Some (asForm f);
         console := console st;
         requests := requests st |}, [(id, asForm f)], Normal)) /\
  (forall b,
     isBody b = true -> present (nodeTag b) <> None ->
     trigger env c
       (Some {| type := kind; target := before ++ b :: after |}) current st =
     (st, [], Normal)).
Proof.
  intros env c current st before after kind H. split.
  - intros f fname members id F1 F2 Ha Hd Hw Hg.
    unfold trigger, getFormFromEvent. cbn [target].
    rewrite (getNearestParent_form before f after H F1 F2). unfold handleAction.
    rewrite truthy_attr_or_null, Ha, (to_key_or_null _ _ Ha), Hw.
    rewrite (stringToFunction_dotless members fname Hd), Hg.
    reflexivity.
  - intros b B1 B2. unfold trigger, getFormFromEvent. cbn [target].
    now rewrite (getNearestParent_body before b after H B1 B2).
Qed.

Lemma trigger_dispatch_witness :
  trigger get_post_env plain_conf
    (Some {| type := "change";
             target := [] ++ {| nodeTag := Some "BODY"; isBody := true;
                                asForm := post_form |} :: [] |})
    None initial_state =
  (initial_state, [], Normal).
Proof.
  apply (proj2 (trigger_dispatch get_post_env plain_conf None initial_state
                  [] [] "change" (Forall_nil _))); [reflexivity|discriminate].
Defined.

End EventsFacts.

(** ** More on the configuration store *)

Module ConfigMore.
Import Config.

(** The backup holds one configuration.  After two calls of [setConf], a
    [resetConf] brings back the configuration that the first call made, not
    the one before it, and leaves no backup, so that a further [resetConf]
    changes nothing: the configuration the store began with is out of
    reach. *)
Theorem backup_holds_one_configuration :
  forall (V : Type) (st : store V) (first second : Obj.t V),
  let s1 := fst (makeNewConf first st) in
  let s2 := fst (makeNewConf second s1) in
  let r1 := resetConfToDefault s2 in
  let r2 := resetConfToDefault (fst r1) in
  conf_bk s2 = Some (conf s1) /\
  conf (fst r1) = conf s1 /\ snd r1 = conf s1 /\ conf_bk (fst r1) = None /\
  fst r2 = fst r1 /\ snd r2 = conf s1.
Proof. intros V st first second. simpl. repeat split. Qed.

End ConfigMore.

(** ** More on group / pargroup gathering *)

Module InformerClassMore.
Import Dom InformerClass InformerClassFacts.

Lemma pass_without_pargroups b : forall elements values,
  Forall (fun e => truthy_attr (pargroup e) = false) elements ->
  exists values',
    pass b (map Some elements) values =
    Ok (map (fun _ => None) elements, values',
        match elements with [] => false | _ :: _ => true end).
Proof.
  induction elements as [|e elements IH]; intros values H; simpl.
  - eauto.
  - inversion H as [|? ? He H']; subst. rewrite He. simpl.
    destruct (addElementToValues_base e values He) as [v1 ->].
    destruct (IH v1 H') as [v2 ->]. eauto.
Qed.

Lemma pass_nothing_left b (A : Type) (l : list A) values :
  pass b (map (fun _ => None) l) values =
  Ok (map (fun _ => None) l, values, false).
Proof.
  induction l as [|a l IH]; simpl; [reflexivity|]. now rewrite IH.
Qed.

Lemma remaining_nothing (A : Type) (l : list A) :
  remaining (map (fun _ => None) l) = [].
Proof. induction l; simpl; auto. Qed.

Lemma remaining_map_Some elements : remaining (map Some elements) = elements.
Proof. induction elements; simpl; congruence. Qed.

(** A form none of whose elements has a pargroup is gathered without an
    error and without orphans: every element is consumed by the first call
    of [loopOnElements], the second call finds nothing left, and nothing is
    written to the console. *)
Theorem plain_forms_gather_cleanly : forall elements,
  Forall (fun e => truthy_attr (pargroup e) = false) elements ->
  exists values',
    gatherElements elements =
    Some (Ok {| values := values';
                left := map (fun _ => None) elements;
                orphans := [];
                console := [];
                passes := match elements with [] => 1 | _ :: _ => 2 end |}).
Proof.
  intros elements H. unfold gatherElements.
  destruct (pass_without_pargroups false elements [] H) as [v Hp].
  cbn [loopOnElements]. rewrite Hp.
  destruct elements as [|e elements].
  - exists v. reflexivity.
  - cbn [List.length loopOnElements]. rewrite pass_nothing_left.
    exists v. unfold displayErrors. now rewrite remaining_nothing.
Qed.

Lemma plain_forms_gather_cleanly_witness :
  exists values',
    gatherElements plan_choice =
    Some (Ok {| values := values';
                left := [None; None];
                orphans := [];
                console := [];
                passes := 2 |}).
Proof.
  apply (plain_forms_gather_cleanly plan_choice).
  repeat constructor.
Defined.

Lemma pass_only_pargroups : forall elements values,
  Forall (fun e => truthy_attr (pargroup e) = true) elements ->
  pass false (map Some elements) values = Ok (map Some elements, values, false).
Proof.
  induction elements as [|e elements IH]; intros values H; simpl.
  - reflexivity.
  - inversion H as [|? ? He H']; subst. rewrite He. simpl. now rewrite IH.
Qed.

(** A form all of whose elements have a pargroup gives the empty object:
    the first call of [loopOnElements] looks at no pargroup, adds nothing,
    and is the only call; every element is reported as an orphan. *)
Theorem pargroups_alone_gather_nothing : forall elements,
  Forall (fun e => truthy_attr (pargroup e) = true) elements ->
  gatherElements elements =
  Some (Ok {| values := [];
              left := map Some elements;
              orphans := elements;
              console :=
                match elements with
                | [] => []
                | _ :: _ =>
                    [warning_line; count_line (List.length elements);
                     heading_line]
                    ++ map (fun o => to_key (pargroup o)) elements
                    ++ [advice_line]
                end;
              passes := 1 |}).
Proof.
  intros elements H. unfold gatherElements. cbn [loopOnElements].
  rewrite (pass_only_pargroups elements [] H).
  unfold displayErrors. rewrite remaining_map_Some.
  now destruct elements.
Qed.

Lemma pargroups_alone_gather_nothing_witness :
  gatherElements [nested "x" "personal" "f_name" "Taylor"] =
  Some (Ok {| values := [];
              left := [Some (nested "x" "personal" "f_name" "Taylor")];
              orphans := [nested "x" "personal" "f_name" "Taylor"];
              console := [warning_line; count_line 1; heading_line; "x";
                          advice_line];
              passes := 1 |}).
Proof.
  apply (pargroups_alone_gather_nothing
           [nested "x" "personal" "f_name" "Taylor"]).
  repeat constructor.
Defined.

(** An element with a group and no pargroup is always consumed, but its
    value is written only when [vals[group]] is neither a non-empty string
    nor a member that the values inherit ([constructor], [toString], ...):
    then the value is found under the group and the name; otherwise the
    values stay as they were and nothing tells of the loss.  The name of
    the element is any name but [__proto__]. *)
Theorem grouped_write_or_silent_drop : forall e vals,
  truthy_attr (pargroup e) = false ->
  truthy_attr (group e) = true ->
  to_key (name e) <> "__proto__" ->
  match read (to_key (group e)) vals with
  | Some (VStr (String c s)) => addElementToValues e vals = Ok (vals, true)
  | Some (VFun m) => addElementToValues e vals = Ok (vals, true)
  | _ =>
      exists vals',
        addElementToValues e vals = Ok (vals', true) /\
        lookup_path [to_key (group e); to_key (name e)] (VObj vals') =
        Some (VStr (val e))
  end.
Proof.
  intros e vals Hp Hg _. unfold addElementToValues. rewrite Hp, Hg.
  unfold ensureObject, assignIn.
  destruct (read (to_key (group e)) vals) as [[[|c s]|members|m]|] eqn:G;
    cbn [truthy negb String.eqb]; rewrite ?G; try reflexivity.
  - unfold read at 1. rewrite get_set_same. eexists. split; [reflexivity|].
    simpl. now repeat rewrite get_set_same.
  - eexists. split; [reflexivity|]. simpl. now repeat rewrite get_set_same.
  - unfold read at 1. rewrite get_set_same. eexists. split; [reflexivity|].
    simpl. now repeat rewrite get_set_same.
Qed.

Lemma grouped_write_or_silent_drop_witness :
  addElementToValues (grouped "constructor" "email" "what@evv.err") [] =
  Ok ([], true).
Proof.
  refine (grouped_write_or_silent_drop
            (grouped "constructor" "email" "what@evv.err") []
            eq_refl eq_refl _).
  discriminate.
Defined.

(** *** Where keys and leaves come from *)

Section Provenance.
Import Provenance.
Variables K L : string -> Prop.
Let allowed := allowed K L.

Lemma props_all_written e vals vals' :
  allowed e -> props_all K L vals ->
  assignIn (to_key (group e)) (to_key (name e)) (val e)
           (ensureObject (to_key (group e)) vals) = Ok vals' ->
  props_all K L vals'.
Proof.
  intros [Hn [Hg Hv]] Hvals. unfold assignIn.
  assert (He : props_all K L (ensureObject (to_key (group e)) vals)).
  { unfold ensureObject. destruct (truthy _); [exact Hvals|].
    apply props_all_set; simpl; auto. }
  unfold read.
  destruct (Obj.get (to_key (group e)) (ensureObject (to_key (group e)) vals))
    as [[s|members|m]|] eqn:G; [| | |destruct (inherited _)];
    intros H; try discriminate; injection H as <-; try exact He.
  apply props_all_set; [exact He|exact Hg|].
  apply tree_all_obj. apply props_all_set; [|exact Hn|exact Hv].
  apply tree_all_obj. exact (props_all_get _ _ _ _ _ He G).
Qed.

Lemma tree_all_insertUnder e parent parent' :
  allowed e -> tree_all K L parent -> insertUnder e parent = Ok parent' ->
  tree_all K L parent'.
Proof.
  intros He Hp. unfold insertUnder. destruct parent as [s|members|m0].
  - destruct (str_has s (to_key (group e))); [|discriminate].
    now intros [= <-].
  - destruct (assignIn _ _ _ _) as [m|] eqn:A; [|discriminate].
    intros [= <-]. apply tree_all_obj.
    apply (props_all_written e members m He); [|exact A].
    now apply tree_all_obj.
  - now intros [= <-].
Qed.

Lemma props_all_scanned e : forall vals vals' added,
  allowed e -> props_all K L vals -> scanProps e vals = Ok (vals', added) ->
  props_all K L vals'.
Proof.
  intros vals vals' added He.
  assert (H : forall v v' a, tree_all K L v -> scanValue e v = Ok (v', a) ->
                             tree_all K L v').
  { induction v as [s|o IH|m] using tree_ind; intros v' a Hv Hs.
    - simpl in Hs. now injection Hs as <- _.
    - rewrite scanValue_obj in Hs.
      destruct (scanProps e o) as [[o' a']|] eqn:S; [|discriminate].
      apply scanProps_ok in S. destruct S as [_ S].
      injection Hs as <- _. apply tree_all_obj. apply tree_all_obj in Hv.
      clear a. revert o' a' Hv S.
      induction IH as [|[k x] o Hx _ IHo]; intros o' a' Hv S.
      + simpl in S. now injection S as <- _.
      + rewrite scanKeys_cons in S. simpl in Hv, Hx.
        destruct Hv as [Hk [Hxa Ho]].
        destruct (k =? to_key (pargroup e)).
        * destruct (insertUnder e x) as [x'|] eqn:I; [|discriminate].
          injection S as <- _. simpl. split; [exact Hk|]. split; [|exact Ho].
          exact (tree_all_insertUnder e x x' He Hxa I).
        * destruct x as [s|xo|m].
          -- destruct (scanKeys e o) as [[o1 a1]|] eqn:S1; [|discriminate].
             injection S as <- _. simpl. split; [exact Hk|]. split; [exact Hxa|].
             exact (IHo o1 a1 Ho eq_refl).
          -- destruct (scanValue e (VObj xo)) as [[x1 a1]|] eqn:S0;
               [|discriminate].
             destruct (scanKeys e o) as [[o1 a2]|] eqn:S1; [|discriminate].
             injection S as <- _. simpl. split; [exact Hk|]. split.
             ++ exact (Hx x1 a1 Hxa eq_refl).
             ++ exact (IHo o1 a2 Ho eq_refl).
          -- destruct (scanKeys e o) as [[o1 a1]|] eqn:S1; [|discriminate].
             injection S as <- _. simpl. split; [exact Hk|]. split; [exact Hxa|].
             exact (IHo o1 a1 Ho eq_refl).
    - simpl in Hs. now injection Hs as <- _. }
  intros Hv S.
  apply tree_all_obj. apply (H (VObj vals) (VObj vals') added).
  - now apply tree_all_obj.
  - rewrite scanValue_obj, S. reflexivity.
Qed.

Lemma props_all_added e vals vals' added :
  allowed e -> props_all K L vals ->
  addElementToValues e vals = Ok (vals', added) -> props_all K L vals'.
Proof.
  intros He Hv. unfold addElementToValues.
  destruct (truthy_attr (pargroup e)).
  - apply props_all_scanned; assumption.
  - destruct (truthy_attr (group e)).
    + destruct (assignIn _ _ _ _) as [m|] eqn:A; [|discriminate].
      intros [= <- _]. exact (props_all_written e vals m He Hv A).
    + intros [= <- _]. destruct He as [Hn [_ Hl]].
      apply props_all_set; simpl; auto.
Qed.

Lemma props_all_pass b : forall elements values elements' values' recur,
  Forall allowed (remaining elements) -> props_all K L values ->
  pass b elements values = Ok (elements', values', recur) ->
  props_all K L values'.
Proof.
  induction elements as [|[e|] elements IH];
    intros values elements' values' recur Ha Hv H; simpl in H.
  - now injection H as _ <- _.
  - simpl in Ha. inversion Ha as [|? ? He Ha']; subst.
    destruct (negb (truthy_attr (pargroup e)) || b)%bool.
    + destruct (addElementToValues e values) as [[v1 added]|] eqn:A;
        [|discriminate].
      destruct (pass b elements v1) as [[[rest v2] r]|] eqn:P; [|discriminate].
      injection H as _ <- _.
      exact (IH _ _ _ _ Ha' (props_all_added e values v1 added He Hv A) P).
    + destruct (pass b elements values) as [[[rest v2] r]|] eqn:P;
        [|discriminate].
      injection H as _ <- _. exact (IH _ _ _ _ Ha' Hv P).
  - destruct (pass b elements values) as [[[rest v2] r]|] eqn:P; [|discriminate].
    injection H as _ <- _. exact (IH _ _ _ _ Ha Hv P).
Qed.

Lemma props_all_loop : forall fuel b elements values left values' n,
  Forall allowed (remaining elements) -> props_all K L values ->
  loopOnElements fuel b elements values = Some (Ok (left, values', n)) ->
  props_all K L values'.
Proof.
  induction fuel as [|fuel IH]; intros b elements values left values' n Ha Hv H;
    [discriminate|].
  simpl in H.
  destruct (pass b elements values) as [[[elements1 values1] recur]|] eqn:Hp;
    [|discriminate].
  pose proof (props_all_pass _ _ _ _ _ _ Ha Hv Hp) as Hv1.
  assert (Ha1 : Forall allowed (remaining elements1)).
  { apply Forall_forall. intros e He.
    apply (proj1 (Forall_forall _ _) Ha).
    exact (remaining_kept _ _ (pass_entries _ _ _ _ _ _ Hp) e He). }
  destruct recur.
  - destruct (loopOnElements fuel true elements1 values1)
      as [[[[e2 v2] n2]|]|] eqn:Hl; try discriminate.
    injection H as _ <- _. apply (IH _ _ _ _ _ _ Ha1 Hv1 Hl).
  - now injection H as _ <- _.
Qed.

(** An element whose pargroup is not an allowed key is never consumed. *)
Lemma pass_keeps_stranger b e0 : forall elements values elements' values' recur,
  Forall allowed (remaining elements) -> props_all K L values ->
  truthy_attr (pargroup e0) = true -> ~ K (to_key (pargroup e0)) ->
  pass b elements values = Ok (elements', values', recur) ->
  In e0 (remaining elements) -> In e0 (remaining elements').
Proof.
  induction elements as [|[e|] elements IH];
    intros values elements' values' recur Ha Hv Hp Hk H Hin; simpl in H.
  - contradiction.
  - simpl in Ha. inversion Ha as [|? ? He Ha']; subst.
    destruct (negb (truthy_attr (pargroup e)) || b)%bool.
    + destruct (addElementToValues e values) as [[v1 added]|] eqn:A;
        [|discriminate].
      destruct (pass b elements v1) as [[[rest v2] r]|] eqn:P; [|discriminate].
      injection H as <- _ _.
      pose proof (props_all_added e values v1 added He Hv A) as Hv1.
      destruct Hin as [-> |Hin].
      * rewrite (addElementToValues_added _ _ _ _ A), Hp. simpl.
        destruct (has_key_in (to_key (pargroup e0)) values) eqn:Hh.
        -- exfalso. exact (Hk (props_all_key _ _ _ _ Hv Hh)).
        -- simpl. now left.
      * pose proof (IH _ _ _ _ Ha' Hv1 Hp Hk P Hin) as Hr.
        destruct added; simpl; auto.
    + destruct (pass b elements values) as [[[rest v2] r]|] eqn:P;
        [|discriminate].
      injection H as <- _ _. simpl. destruct Hin as [-> |Hin]; [now left|].
      right. exact (IH _ _ _ _ Ha' Hv Hp Hk P Hin).
  - destruct (pass b elements values) as [[[rest v2] r]|] eqn:P; [|discriminate].
    injection H as <- _ _. simpl. exact (IH _ _ _ _ Ha Hv Hp Hk P Hin).
Qed.

Lemma loop_keeps_stranger e0 : forall fuel b elements values left values' n,
  Forall allowed (remaining elements) -> props_all K L values ->
  truthy_attr (pargroup e0) = true -> ~ K (to_key (pargroup e0)) ->
  loopOnElements fuel b elements values = Some (Ok (left, values', n)) ->
  In e0 (remaining elements) -> In e0 (remaining left).
Proof.
  induction fuel as [|fuel IH];
    intros b elements values left values' n Ha Hv Hp Hk H Hin; [discriminate|].
  simpl in H.
  destruct (pass b elements values) as [[[elements1 values1] recur]|] eqn:P;
    [|discriminate].
  pose proof (props_all_pass _ _ _ _ _ _ Ha Hv P) as Hv1.
  pose proof (pass_keeps_stranger _ _ _ _ _ _ _ Ha Hv Hp Hk P Hin) as Hin1.
  assert (Ha1 : Forall allowed (remaining elements1)).
  { apply Forall_forall. intros e He.
    apply (proj1 (Forall_forall _ _) Ha).
    exact (remaining_kept _ _ (pass_entries _ _ _ _ _ _ P) e He). }
  destruct recur.
  - destruct (loopOnElements fuel true elements1 values1)
      as [[[[e2 v2] n2]|]|] eqn:Hl; try discriminate.
    injection H as <- _ _. apply (IH _ _ _ _ _ _ Ha1 Hv1 Hp Hk Hl Hin1).
  - now injection H as <- _ _.
Qed.

End Provenance.

Lemma elements_allowed elements :
  Forall (Provenance.allowed (Provenance.key_of elements)
                             (Provenance.value_of elements))
         (remaining (map Some elements)).
Proof.
  rewrite remaining_map_Some. apply Forall_forall. intros e He.
  unfold Provenance.allowed, Provenance.key_of, Provenance.value_of.
  repeat split; exists e; auto.
Qed.

(** Nothing in the returned values is made up: every key, at any depth, is
    the name or the group of an element, and every leaf is the value of an
    element; a pargroup as such never becomes a key. *)
Theorem keys_and_leaves_come_from_elements : forall elements g,
  gatherElements elements = Some (Ok g) ->
  (forall k, has_key_in k (values g) = true -> Provenance.key_of elements k) /\
  (forall s, 0 < leaf_count_in s (values g) -> Provenance.value_of elements s).
Proof.
  intros elements g H. destruct (gatherElements_loop _ _ H) as [Hl _].
  assert (Hv : Provenance.props_all (Provenance.key_of elements)
                 (Provenance.value_of elements) (values g)).
  { apply (props_all_loop _ _ _ _ _ [] _ _ _ (elements_allowed elements) I Hl). }
  split.
  - intros k. exact (props_all_key _ _ k _ Hv).
  - intros s. exact (props_all_leaf _ _ s _ Hv).
Qed.

Lemma keys_and_leaves_come_from_elements_witness :
  Provenance.key_of billing_and_address "geo".
Proof.
  apply (proj1 (keys_and_leaves_come_from_elements billing_and_address
                  billing_and_address_gathered eq_refl) "geo").
  reflexivity.
Defined.

(** An element whose pargroup is neither the name nor the group of any
    element is an orphan, whatever the other elements are: the key it waits
    for cannot come. *)
Theorem stray_pargroup_is_orphaned : forall elements g e0,
  gatherElements elements = Some (Ok g) ->
  In e0 elements ->
  truthy_attr (pargroup e0) = true ->
  ~ Provenance.key_of elements (to_key (pargroup e0)) ->
  In e0 (orphans g).
Proof.
  intros elements g e0 H Hin Hp Hk.
  destruct (gatherElements_loop _ _ H) as [Hl [-> _]].
  apply (loop_keeps_stranger _ _ e0 _ _ _ [] _ _ _
           (elements_allowed elements) I Hp Hk Hl).
  now rewrite remaining_map_Some.
Qed.

Lemma stray_pargroup_is_orphaned_witness :
  In (nested "x" "personal" "f_name" "Taylor")
     (orphans login_and_stray_gathered).
Proof.
  apply (stray_pargroup_is_orphaned login_and_stray login_and_stray_gathered
           (nested "x" "personal" "f_name" "Taylor") eq_refl).
  - simpl. auto.
  - reflexivity.
  - intros [e [Hin Hk]]. simpl in Hin.
    destruct Hin as [<-|[<-|[<-|[]]]]; simpl in Hk;
      destruct Hk; discriminate.
Defined.

(** *** A pargroup that names a plain field *)

Lemma scanKeys_keeps_string e k s : forall vals vals' added,
  Obj.get k vals = Some (VStr s) ->
  scanKeys e vals = Ok (vals', added) ->
  Obj.get k vals' = Some (VStr s).
Proof.
  induction vals as [|[key x] vals IH]; intros vals' added Hg Hs.
  - discriminate.
  - rewrite scanKeys_cons in Hs. simpl in Hg.
    destruct (key =? to_key (pargroup e)).
    + destruct (insertUnder e x) as [x'|] eqn:Hi; [|discriminate].
      injection Hs as <- _. simpl.
      destruct (key =? k); [|exact Hg].
      injection Hg as ->. simpl in Hi.
      destruct (str_has s (to_key (group e))); congruence.
    + destruct x as [s0|o|m].
      * destruct (scanKeys e vals) as [[props'' added']|] eqn:Hr; [|discriminate].
        injection Hs as <- _. simpl.
        destruct (key =? k); [exact Hg|]. eapply IH; eauto.
      * destruct (scanValue e (VObj o)) as [[x' a1]|]; [|discriminate].
        destruct (scanKeys e vals) as [[props'' added']|] eqn:Hr; [|discriminate].
        injection Hs as <- _. simpl.
        destruct (key =? k); [discriminate|]. eapply IH; eauto.
      * destruct (scanKeys e vals) as [[props'' added']|] eqn:Hr; [|discriminate].
        injection Hs as <- _. simpl.
        destruct (key =? k); [exact Hg|]. eapply IH; eauto.
Qed.

Lemma scanProps_keeps_string e k s vals vals' added :
  Obj.get k vals = Some (VStr s) ->
  scanProps e vals = Ok (vals', added) ->
  Obj.get k vals' = Some (VStr s).
Proof.
  intros Hg Hs. apply scanProps_ok in Hs. destruct Hs as [_ Hs].
  eapply scanKeys_keeps_string; eauto.
Qed.

Lemma scanKeys_string_throws e s : forall vals,
  Obj.get (to_key (pargroup e)) vals = Some (VStr s) ->
  str_has s (to_key (group e)) = false ->
  scanKeys e vals = TypeError.
Proof.
  induction vals as [|[key x] vals IH]; intros Hg Hn.
  - discriminate.
  - rewrite scanKeys_cons. simpl in Hg.
    destruct (key =? to_key (pargroup e)).
    + injection Hg as ->. simpl. now rewrite Hn.
    + destruct x as [s0|o|m].
      * now rewrite (IH Hg Hn).
      * destruct (scanValue e (VObj o)) as [[x' a1]|]; [|reflexivity].
        now rewrite (IH Hg Hn).
      * now rewrite (IH Hg Hn).
Qed.

Lemma scanProps_string_throws e s vals :
  Obj.get (to_key (pargroup e)) vals = Some (VStr s) ->
  str_has s (to_key (group e)) = false ->
  scanProps e vals = TypeError.
Proof.
  intros Hg Hn. unfold scanProps.
  destruct (hasOwnProperty_callable vals); [|reflexivity].
  now apply (scanKeys_string_throws e s).
Qed.

Lemma plain_key_no_property s k :
  Provenance.plain_key k -> str_has s k = false.
Proof.
  intros [H1 [H2 [H3 H4]]]. unfold str_has. now rewrite H1, H2, H3, H4.
Qed.

Lemma addElementToValues_keeps_string e k vals vals' added :
  Provenance.no_root_group k e ->
  Provenance.string_at k vals ->
  addElementToValues e vals = Ok (vals', added) ->
  Provenance.string_at k vals'.
Proof.
  intros Hc [s Hs] H. unfold addElementToValues in H.
  destruct (truthy_attr (pargroup e)) eqn:P.
  - exists s. eapply scanProps_keeps_string; eauto.
  - destruct (truthy_attr (group e)) eqn:G.
    + specialize (Hc P G).
      assert (He : Obj.get k (ensureObject (to_key (group e)) vals) =
                   Some (VStr s)).
      { unfold ensureObject.
        destruct (truthy (read (to_key (group e)) vals)); [exact Hs|].
        rewrite get_set_other; [exact Hs|congruence]. }
      unfold assignIn in H.
      destruct (read (to_key (group e))
                  (ensureObject (to_key (group e)) vals)) as [[s0|o|m]|];
        [| | |discriminate]; injection H as <- _; exists s; try exact He.
      rewrite get_set_other; [exact He|congruence].
    + injection H as <- _.
      destruct (String.eqb_spec k (to_key (name e))) as [->|Hne].
      * exists (val e). apply get_set_same.
      * exists s. rewrite get_set_other; [exact Hs|congruence].
Qed.

Lemma pass_base_sets_string e1 k : forall elements values elements' values' recur,
  truthy_attr (pargroup e1) = false -> truthy_attr (group e1) = false ->
  to_key (name e1) = k ->
  (forall e, In (Some e) elements -> Provenance.no_root_group k e) ->
  (Provenance.string_at k values \/ In (Some e1) elements) ->
  pass false elements values = Ok (elements', values', recur) ->
  Provenance.string_at k values' /\
  (In (Some e1) elements -> recur = true).
Proof.
  intros elements values elements' values' recur P1 G1 N1.
  revert values elements' values' recur.
  induction elements as [|[e|] elements IH];
    intros values elements' values' recur Hc Hor H; simpl in H.
  - injection H as _ <- _. destruct Hor as [Hs|[]]. split; [exact Hs|intros []].
  - destruct (truthy_attr (pargroup e)) eqn:P; simpl in H.
    + destruct (pass false elements values) as [[[rest v2] r]|] eqn:Hp;
        [|discriminate].
      injection H as _ <- <-.
      assert (Hor' : Provenance.string_at k values \/ In (Some e1) elements).
      { destruct Hor as [Hs|[Heq|Hin]]; auto. congruence. }
      destruct (IH _ _ _ _ (fun e0 H0 => Hc e0 (or_intror H0)) Hor' Hp)
        as [A B].
      split; [exact A|]. intros [Heq|Hin]; [congruence|auto].
    + destruct (addElementToValues e values) as [[v1 added]|] eqn:Ha;
        [|discriminate].
      destruct (pass false elements v1) as [[[rest v2] r]|] eqn:Hp;
        [|discriminate].
      injection H as _ <- <-.
      destruct (addElementToValues_base e values P) as [v1' Hv1].
      assert (added = true) by congruence. subst added.
      assert (Hs1 : Provenance.string_at k v1 \/ In (Some e1) elements).
      { destruct Hor as [Hs|[Heq|Hin]].
        - left. eapply addElementToValues_keeps_string; eauto.
          apply Hc. now left.
        - left. injection Heq as ->. unfold addElementToValues in Ha.
          rewrite P1, G1 in Ha. injection Ha as <-.
          exists (val e1). rewrite N1. apply get_set_same.
        - now right. }
      destruct (IH _ _ _ _ (fun e0 H0 => Hc e0 (or_intror H0)) Hs1 Hp)
        as [A B].
      split; [exact A|reflexivity].
  - destruct (pass false elements values) as [[[rest v2] r]|] eqn:Hp;
      [|discriminate].
    injection H as _ <- <-.
    assert (Hor' : Provenance.string_at k values \/ In (Some e1) elements).
    { destruct Hor as [Hs|[Heq|Hin]]; auto. discriminate. }
    destruct (IH _ _ _ _ (fun e0 H0 => Hc e0 (or_intror H0)) Hor' Hp)
      as [A B].
    split; [exact A|]. intros [Heq|Hin]; [discriminate|auto].
Qed.

Lemma pass_keeps_pargroups e2 : forall elements values elements' values' recur,
  truthy_attr (pargroup e2) = true ->
  In (Some e2) elements ->
  pass false elements values = Ok (elements', values', recur) ->
  In (Some e2) elements'.
Proof.
  intros elements values elements' values' recur P2.
  revert values elements' values' recur.
  induction elements as [|[e|] elements IH];
    intros values elements' values' recur Hin H; simpl in H.
  - destruct Hin.
  - destruct (truthy_attr (pargroup e)) eqn:P; simpl in H.
    + destruct (pass false elements values) as [[[rest v2] r]|] eqn:Hp;
        [|discriminate].
      injection H as <- _ _.
      destruct Hin as [Heq|Hin]; [now left|right; eauto].
    + destruct (addElementToValues e values) as [[v1 added]|]; [|discriminate].
      destruct (pass false elements v1) as [[[rest v2] r]|] eqn:Hp;
        [|discriminate].
      injection H as <- _ _.
      destruct Hin as [Heq|Hin]; [congruence|right; eauto].
  - destruct (pass false elements values) as [[[rest v2] r]|] eqn:Hp;
      [|discriminate].
    injection H as <- _ _.
    destruct Hin as [Heq|Hin]; [discriminate|right; eauto].
Qed.

Lemma pass_entries_in b : forall elements values elements' values' recur,
  pass b elements values = Ok (elements', values', recur) ->
  forall e, In (Some e) elements' -> In (Some e) elements.
Proof.
  intros elements values elements' values' recur H.
  pose proof (pass_entries _ _ _ _ _ _ H) as F. clear H.
  induction F as [|x x' l l' Hx _ IH]; intros e Hin; [exact Hin|].
  destruct Hin as [Heq|Hin]; [|right; auto].
  destruct Hx as [Hx|Hx]; [left; congruence|congruence].
Qed.

Lemma pass_string_throws e2 k : forall elements values,
  truthy_attr (pargroup e2) = true -> to_key (pargroup e2) = k ->
  Provenance.plain_key (to_key (group e2)) ->
  (forall e, In (Some e) elements -> Provenance.no_root_group k e) ->
  In (Some e2) elements ->
  Provenance.string_at k values ->
  pass true elements values = TypeError.
Proof.
  intros elements values P2 K2 Hplain. revert values.
  induction elements as [|[e|] elements IH]; intros values Hc Hin Hs; simpl.
  - destruct Hin.
  - rewrite orb_true_r.
    destruct (addElementToValues e values) as [[v1 added]|] eqn:Ha;
      [|reflexivity].
    destruct Hin as [Heq|Hin].
    + injection Heq as ->. exfalso.
      unfold addElementToValues in Ha. rewrite P2 in Ha.
      destruct Hs as [s Hs]. rewrite <- K2 in Hs.
      rewrite (scanProps_string_throws e2 s values Hs) in Ha; [discriminate|].
      now apply plain_key_no_property.
    + rewrite (IH v1); [reflexivity| |exact Hin|].
      * intros e0 H0. apply Hc. now right.
      * eapply addElementToValues_keeps_string; eauto. apply Hc. now left.
  - destruct Hin as [Heq|Hin]; [discriminate|].
    rewrite (IH values); [reflexivity| |exact Hin|exact Hs].
    intros e0 H0. apply Hc. now right.
Qed.

(** A form in which one element has for its pargroup the name of a plain
    field (an element with a name and neither group nor pargroup), no group
    of that name being opened at the root, makes the constructor revision
    throw: the scan finds the field's string under the pargroup's key and
    tries to set a property of it.  The group of the element with the
    pargroup must be a key under which a string has nothing: not [length],
    not an index, not a member that strings inherit; and no element uses
    the name or the group [__proto__]. *)
Theorem pargroup_naming_a_field_throws : forall elements e1 e2,
  In e1 elements -> In e2 elements ->
  truthy_attr (pargroup e1) = false -> truthy_attr (group e1) = false ->
  truthy_attr (pargroup e2) = true ->
  to_key (pargroup e2) = to_key (name e1) ->
  Provenance.plain_key (to_key (group e2)) ->
  (forall e, In e elements ->
             Provenance.no_root_group (to_key (name e1)) e) ->
  (forall e, In e elements ->
             to_key (name e) <> "__proto__" /\
             to_key (group e) <> "__proto__") ->
  gatherElements elements = Some TypeError.
Proof.
  intros elements e1 e2 I1 I2 P1 G1 P2 K2 Hplain Hc _.
  unfold gatherElements. cbn [loopOnElements].
  assert (Hc' : forall e, In (Some e) (map Some elements) ->
                          Provenance.no_root_group (to_key (name e1)) e).
  { intros e He. apply in_map_iff in He. destruct He as [x [Heq Hx]].
    injection Heq as ->. now apply Hc. }
  assert (J1 : In (Some e1) (map Some elements)) by now apply in_map.
  assert (J2 : In (Some e2) (map Some elements)) by now apply in_map.
  destruct (pass false (map Some elements) []) as [[[es1 v1] recur]|] eqn:Hp;
    [|reflexivity].
  destruct (pass_base_sets_string e1 _ _ _ _ _ _ P1 G1 eq_refl Hc'
              (or_intror J1) Hp) as [Hs Hr].
  rewrite (Hr J1).
  destruct elements as [|x elements]; [destruct I1|].
  cbn [List.length loopOnElements].
  rewrite (pass_string_throws e2 (to_key (name e1)) es1 v1 P2 K2 Hplain);
    [reflexivity| | |exact Hs].
  - intros e He. apply Hc'. eapply pass_entries_in; eauto.
  - eapply pass_keeps_pargroups; eauto.
Qed.

Lemma pargroup_naming_a_field_throws_witness :
  gatherElements [field "user" "Taylor"; nested "user" "more" "age" "33"] =
  Some TypeError.
Proof.
  apply (pargroup_naming_a_field_throws
           [field "user" "Taylor"; nested "user" "more" "age" "33"]
           (field "user" "Taylor") (nested "user" "more" "age" "33")).
  - now left.
  - right. now left.
  - reflexivity.
  - reflexivity.
  - reflexivity.
  - reflexivity.
  - repeat split.
  - intros e [<-|[<-|[]]]; unfold Provenance.no_root_group; simpl;
      intros; discriminate.
  - intros e [<-|[<-|[]]]; split; discriminate.
Defined.

End InformerClassMore.

(** ** The two revisions side by side *)

Module RevisionsFacts.
Import Dom Revisions.

Lemma or_false_present x :
  or_false x = match present x with Some s => AStr s | None => AFalse end.
Proof. destruct x as [s|]; simpl; [|reflexivity]. now destruct (s =? EmptyString). Qed.

Lemma or_null_present x n : present x = Some n -> or_null x = AStr n.
Proof.
  destruct x as [s|]; simpl; [|discriminate].
  destruct (s =? EmptyString); [discriminate|congruence].
Qed.

Lemma present_nonempty x n : present x = Some n -> (n =? EmptyString) = false.
Proof.
  destruct x as [s|]; simpl; [|discriminate].
  destruct (s =? EmptyString) eqn:E; [discriminate|congruence].
Qed.

Section Agreement.
Variable N : string -> Prop.

Let cond (e : element) : Prop :=
  present (getAttribute "pargroup" e) = None /\
  exists n, present (getAttribute "name" e) = Some n /\
            inherited n = false /\
            (present (getAttribute "group" e) = None -> N n) /\
            (forall g, present (getAttribute "group" e) = Some g ->
                       Events.contains ":"%char g = false /\
                       inherited g = false /\ ~ N g).

(** The keys are ordinary ones, a key of the root that holds a string is the
    name of an element without a group, and the root holds no function. *)
Let inv (vals : obj) : Prop :=
  InformerMore.ordinary vals /\
  (forall k s, Obj.get k vals = Some (VStr s) -> N k) /\
  (forall k m, Obj.get k vals <> Some (VFun m)).

Lemma step_agrees e vals :
  cond e -> inv vals ->
  InformerClass.addElementToValues (entry_of e) vals =
    Ok (Informer.groupValues_step vals (Informer.elemToObject e), true) /\
  inv (Informer.groupValues_step vals (Informer.elemToObject e)).
Proof.
  intros [Hp [n [Hn [Hin [Hplain Hgroup]]]]] [Hord [Hstr Hfun]].
  unfold InformerClass.addElementToValues, Informer.groupValues_step,
    entry_of, Informer.elemToObject.
  cbn [InformerClass.pargroup InformerClass.group InformerClass.name
       InformerClass.val Informer.group Informer.name Informer.value].
  rewrite !or_false_present, Hp, Hn, (or_null_present _ _ Hn).
  cbn [truthy_attr to_key].
  destruct (present (getAttribute "group" e)) as [g|] eqn:G.
  - destruct (Hgroup g eq_refl) as [Hc [Hig Hng]].
    cbn [truthy_attr to_key]. rewrite (present_nonempty _ _ G). cbn [negb].
    rewrite (EventsFacts.split_without _ _ Hc).
    cbn [Informer.buildNestedObject]. rewrite Hig, !set_nil.
    rewrite InformerFacts.mergeObjects_single.
    unfold InformerClass.assignIn, InformerClass.ensureObject.
    rewrite (InformerFacts.read_ordinary g vals Hig).
    assert (Hnew : forall x,
              InformerMore.ordinary x ->
              inv (Obj.set g (VObj x) vals)).
    { intros x Hx. split; [|split].
      - apply props_all_set; [exact Hord|exact Hig|].
        now apply tree_all_obj.
      - intros k s Hk. destruct (String.eqb_spec k g) as [->|Hne].
        + rewrite get_set_same in Hk. discriminate.
        + rewrite get_set_other in Hk by congruence. eapply Hstr; eauto.
      - intros k m Hk. destruct (String.eqb_spec k g) as [->|Hne].
        + rewrite get_set_same in Hk. discriminate.
        + rewrite get_set_other in Hk by congruence. exact (Hfun _ _ Hk). }
    assert (Hc2 : constructor_is_Object (VObj [(n, VStr (value e))]) = true).
    { apply InformerMore.ordinary_constructor. simpl. auto. }
    destruct (Obj.get g vals) as [[s|x1|m]|] eqn:Gv.
    + exfalso. apply Hng. eapply Hstr; eauto.
    + cbn [truthy].
      rewrite (InformerFacts.read_ordinary g vals Hig), Gv.
      assert (Hx1 : InformerMore.ordinary x1).
      { apply tree_all_obj. exact (props_all_get _ _ _ _ _ Hord Gv). }
      assert (Em : Informer.merged (Some (VObj x1))
                     (VObj [(n, VStr (value e))]) =
                   VObj (Obj.set n (VStr (value e)) x1)).
      { unfold Informer.merged at 1.
        rewrite (InformerMore.ordinary_constructor x1 Hx1), Hc2. cbn [andb].
        rewrite InformerFacts.mergeObjects_single.
        unfold Informer.merged. now destruct (Obj.get n x1) as [[| |]|]. }
      rewrite Em. split; [reflexivity|]. apply Hnew.
      apply props_all_set; simpl; auto.
    + exfalso. exact (Hfun _ _ Gv).
    + cbn [truthy].
      rewrite (InformerFacts.read_ordinary g _ Hig), get_set_same.
      rewrite set_set, set_nil. cbn [Informer.merged].
      split; [reflexivity|]. apply Hnew. simpl. auto.
  - cbn [truthy_attr]. split; [reflexivity|]. split; [|split].
    + apply props_all_set; simpl; auto.
    + intros k s Hk. destruct (String.eqb_spec k n) as [->|Hne].
      * now apply Hplain.
      * rewrite get_set_other in Hk by congruence. eapply Hstr; eauto.
    + intros k m Hk. destruct (String.eqb_spec k n) as [->|Hne].
      * rewrite get_set_same in Hk. discriminate.
      * rewrite get_set_other in Hk by congruence. exact (Hfun _ _ Hk).
Qed.

Lemma pass_agrees b : forall l vals,
  Forall cond l -> inv vals ->
  InformerClass.pass b (map Some (map entry_of l)) vals =
  Ok (map (fun _ => None) (map entry_of l),
      fold_left Informer.groupValues_step (map Informer.elemToObject l) vals,
      match l with [] => false | _ :: _ => true end).
Proof.
  induction l as [|e l IH]; intros vals Hl Hinv; [reflexivity|].
  inversion Hl as [|? ? He Hl']; subst.
  destruct (step_agrees e vals He Hinv) as [Hs Hinv'].
  cbn [map InformerClass.pass fold_left].
  assert (P : truthy_attr (InformerClass.pargroup (entry_of e)) = false).
  { destruct He as [Hp _]. unfold entry_of. cbn [InformerClass.pargroup].
    now rewrite or_false_present, Hp. }
  rewrite P. cbn [negb orb]. rewrite Hs, (IH _ Hl' Hinv'). reflexivity.
Qed.

End Agreement.

Lemma scanned_kinds f :
  forall e,
    In e (getElementsByTagName "input" f ++ getElementsByTagName "select" f ++
          getElementsByTagName "textarea" f) ->
    In e (descendants f) /\ Events.scanned e = true.
Proof.
  intros e He. unfold getElementsByTagName in He.
  rewrite !in_app_iff, !filter_In in He. unfold Events.scanned, input_types.
  cbn [existsb].
  destruct He as [[H1 H2]|[[H1 H2]|[H1 H2]]]; (split; [exact H1|]);
    rewrite H2; rewrite ?orb_true_r; reflexivity.
Qed.

(** On a form whose inputs, selects and textareas all have a name, no
    pargroup and no colon in their group, neither name nor group being the
    name of a member that objects inherit and no group having the name of
    an element without a group, the constructor revision gathers the very
    object that the module revision gathers, without an error, an orphan
    or a line on the console. *)
Theorem revisions_agree_on_flat_forms : forall f,
  (forall e, In e (descendants f) -> Events.scanned e = true -> flat e) ->
  (forall e g, In e (descendants f) -> Events.scanned e = true ->
               present (getAttribute "group" e) = Some g ->
               ~ plain_name f g) ->
  exists g,
    InformerClass.gatherTheValues f = Some (Ok g) /\
    InformerClass.values g = Informer.gatherTheValues f /\
    InformerClass.orphans g = [] /\ InformerClass.console g = [].
Proof.
  intros f Hflat Hnames.
  set (l := (getElementsByTagName "input" f ++ getElementsByTagName "select" f
             ++ getElementsByTagName "textarea" f)%list).
  assert (E1 : InformerClass.buildElementsArray f = map entry_of l).
  { unfold InformerClass.buildElementsArray, input_types, l. simpl.
    now rewrite app_nil_r, !map_app. }
  assert (E2 : Informer.elemsToObjs f = map Informer.elemToObject l).
  { unfold Informer.elemsToObjs, input_types, l. simpl.
    now rewrite app_nil_r, !map_app. }
  assert (Hl : Forall (fun e =>
              present (getAttribute "pargroup" e) = None /\
              exists n, present (getAttribute "name" e) = Some n /\
                inherited n = false /\
                (present (getAttribute "group" e) = None -> plain_name f n) /\
                (forall g, present (getAttribute "group" e) = Some g ->
                           Events.contains ":"%char g = false /\
                           inherited g = false /\
                           ~ plain_name f g)) l).
  { apply Forall_forall. intros e He.
    destruct (scanned_kinds f e He) as [Hd Hs].
    destruct (Hflat e Hd Hs) as [Hp [[n [Hn Hin]] Hg]]. split; [exact Hp|].
    exists n. split; [exact Hn|]. split; [exact Hin|]. split.
    - intros G. exists e. auto.
    - intros g G. destruct (Hg g G) as [Hc Hig].
      split; [exact Hc|]. split; [exact Hig|]. now apply (Hnames e g). }
  assert (Hinv : InformerMore.ordinary [] /\
                 (forall k s, Obj.get k (@nil (string * tree)) = Some (VStr s) ->
                              plain_name f k) /\
                 (forall k m, Obj.get k (@nil (string * tree)) <> Some (VFun m))).
  { split; [exact I|]. split; discriminate. }
  pose proof (pass_agrees (plain_name f) false l [] Hl Hinv) as Hp.
  unfold InformerClass.gatherTheValues, InformerClass.gatherElements,
    Informer.gatherTheValues, Informer.groupValues.
  rewrite E1, E2. cbn [InformerClass.loopOnElements]. rewrite Hp.
  destruct l as [|e l'].
  - eexists. split; [reflexivity|]. repeat split.
  - cbn [map List.length InformerClass.loopOnElements].
    change (None :: map (fun _ => None) (map entry_of l'))
      with (map (fun _ : InformerClass.elem => @None InformerClass.elem)
                (entry_of e :: map entry_of l')).
    rewrite InformerClassMore.pass_nothing_left.
    eexists. split; [reflexivity|]. cbn [InformerClass.values
      InformerClass.orphans InformerClass.console].
    unfold InformerClass.displayErrors.
    rewrite InformerClassMore.remaining_nothing. repeat split.
Qed.

Lemma revisions_agree_on_flat_forms_witness :
  exists g,
    InformerClass.gatherTheValues account_form = Some (Ok g) /\
    InformerClass.values g = Informer.gatherTheValues account_form /\
    InformerClass.orphans g = [] /\ InformerClass.console g = [].
Proof.
  apply (revisions_agree_on_flat_forms account_form).
  - intros e [<-|[<-|[<-|[]]]] _; (split; [reflexivity|]);
      (split; [eexists; split; reflexivity|]); intros g Hg; simpl in Hg;
      try discriminate; injection Hg as <-; split; reflexivity.
  - intros e g He _ Hg [e' [He' [_ [G' N']]]].
    destruct He as [<-|[<-|[<-|[]]]]; simpl in Hg; try discriminate;
      injection Hg as <-;
      destruct He' as [<-|[<-|[<-|[]]]]; simpl in G', N'; discriminate.
Defined.

End RevisionsFacts.

(** ** Submission in the constructor revision *)

Module ClassSubmissionFacts.
Import Dom ClassSubmission.

(** What [submitTheValues] of the constructor revision logs and sends.  The
    first line on the console names the key under which the values are
    sent when the form has a name or an id; a form with neither sends them
    under [json] while the line shows the id attribute as it was read,
    [null] or empty.  A form without a method attribute makes the function
    throw after the two lines were written, nothing having been sent. *)
Theorem submitTheValues_log_and_key : forall stringify Http caller values,
  let lines := fst (submitTheValues stringify Http caller values) in
  let result := snd (submitTheValues stringify Http caller values) in
  let name := or_null (formAttribute "name" caller) in
  let id := or_null (formAttribute "id" caller) in
  List.length lines = 2 /\
  (forall c, result = Ok c ->
     data c = stringify values /\
     ((truthy_attr name || truthy_attr id)%bool = true ->
      nth_error lines 0 = Some (key c ++ "=" ++ data c)%string) /\
     ((truthy_attr name || truthy_attr id)%bool = false ->
      key c = "json" /\
      nth_error lines 0 = Some (to_key id ++ "=" ++ data c)%string)) /\
  (formAttribute "method" caller = None -> result = TypeError).
Proof.
  intros stringify Http caller values. unfold submitTheValues.
  cbn [fst snd List.length nth_error]. split; [reflexivity|]. split.
  - intros c Hc.
    destruct (or_null (formAttribute "method" caller)) as [| |m];
      try discriminate.
    destruct (existsb (String.eqb (toLowerCase m)) Http);
      [|discriminate].
    injection Hc as <-. cbn [data key]. split; [reflexivity|].
    destruct (truthy_attr (or_null (formAttribute "name" caller)));
      destruct (truthy_attr (or_null (formAttribute "id" caller)));
      cbn [orb]; split; intros H; try discriminate; auto.
  - intros H. now rewrite H.
Qed.

Lemma submitTheValues_log_and_key_witness :
  snd (submitTheValues (fun _ => "{}"%string) ["get"; "post"]%string
         nameless_form []) = TypeError.
Proof.
  apply (proj2 (proj2 (submitTheValues_log_and_key (fun _ => "{}"%string)
                         ["get"; "post"]%string nameless_form []))).
  reflexivity.
Defined.

End ClassSubmissionFacts.
